(** * cs2-chat-translator: chat-line parsing, command dispatch and
      translation resolution of [bin/cs2-chat-translator.js]

    The development embeds the decision logic of the script: the regular
    expressions it tests chat messages with, the language catalogue and its
    fuzzy lookup, [smartTranslate], the three command handlers, the
    console-only auto translation and [handleLine].

    - A JavaScript string is a list of UTF-16 code units ([N]).
    - A regular expression literal of the source is a value of [regex], run
      by a backtracking matcher that follows the ECMAScript semantics of
      the constructs the script uses.
    - The effects of one [handleLine] call (the memory cell
      [lastForeignMsg], calls of the translation API, console lines, writes
      of [chat_reader.cfg], timers) are threaded through a state, writer
      and exception monad [M].  One call is run to completion: the
      interleaving of several in-flight calls is not modelled.
    - What the script imports is a parameter of the model ([Imports]): the
      translation API, fuzzball's [fuzz.ratio], and the case mappings of
      strings outside ASCII. *)

From Stdlib Require Import String Ascii List NArith ZArith Bool Lia.
Import ListNotations.

Set Implicit Arguments.
Local Open Scope N_scope.

(** ** JavaScript strings *)

Definition cu := N.
Definition jsstring := list cu.

(** A string literal of the source whose characters are all ASCII. *)
Definition js (s : string) : jsstring :=
  map N_of_ascii (list_ascii_of_string s).

Arguments js s%_string.

Definition cu_eqb (a b : cu) : bool := N.eqb a b.

Fixpoint str_eqb (a b : jsstring) : bool :=
  match a, b with
  | [], [] => true
  | x :: a', y :: b' => cu_eqb x y && str_eqb a' b'
  | _, _ => false
  end.

Definition in_range (lo hi c : cu) : bool := (lo <=? c) && (c <=? hi).

(** ECMAScript WhiteSpace and LineTerminator code units: what [\s]
    matches and what [String.prototype.trim] strips. *)
Definition isLineTerminator (c : cu) : bool :=
  (c =? 0x0A) || (c =? 0x0D) || (c =? 0x2028) || (c =? 0x2029).

Definition isWhiteSpace (c : cu) : bool :=
  in_range 0x09 0x0D c || (c =? 0x20) || (c =? 0xA0) || (c =? 0x1680)
  || in_range 0x2000 0x200A c || (c =? 0x2028) || (c =? 0x2029)
  || (c =? 0x202F) || (c =? 0x205F) || (c =? 0x3000) || (c =? 0xFEFF).

(** [\w]: the ASCII letters, digits and the underscore. *)
Definition isWordChar (c : cu) : bool :=
  in_range 0x61 0x7A c || in_range 0x41 0x5A c || in_range 0x30 0x39 c
  || (c =? 0x5F).

Definition lowerAscii (c : cu) : cu :=
  if in_range 0x41 0x5A c then c + 32 else c.

Definition upperAscii (c : cu) : cu :=
  if in_range 0x61 0x7A c then c - 32 else c.

(** [s.trim()] *)
Fixpoint trimStart (s : jsstring) : jsstring :=
  match s with
  | c :: s' => if isWhiteSpace c then trimStart s' else s
  | [] => []
  end.

Definition trimEnd (s : jsstring) : jsstring := rev (trimStart (rev s)).

Definition trim (s : jsstring) : jsstring := trimEnd (trimStart s).

(** [a || b] on strings that may be [undefined]: the empty string and
    [undefined] are falsy. *)
Definition orElse (a : option jsstring) (b : jsstring) : jsstring :=
  match a with
  | Some (c :: s) => c :: s
  | _ => b
  end.

(** [parts.join(sep)] *)
Fixpoint join (sep : jsstring) (parts : list jsstring) : jsstring :=
  match parts with
  | [] => []
  | [p] => p
  | p :: ps => p ++ sep ++ join sep ps
  end.

(** [s.split(" ")]: split at every U+0020; an empty input gives one empty
    part. *)
Fixpoint splitSpace (s : jsstring) : list jsstring :=
  match s with
  | [] => [[]]
  | c :: s' =>
      if c =? 0x20 then [] :: splitSpace s'
      else match splitSpace s' with
           | p :: ps => (c :: p) :: ps
           | [] => [[c]]
           end
  end.

(** ** Regular expressions

    The fragment of ECMAScript regular expressions the script uses: one-unit
    atoms (a literal, a class, [.]), greedy quantifiers on such atoms, the
    assertions [^], [$] and [\b], sequence, alternation and capture
    groups.  No literal of the script has the [m], [s] or [u] flag. *)

Inductive regex : Type :=
| Empty
| Char (p : cu -> bool)
| Repeat (p : cu -> bool) (min : nat) (max : option nat)
| Bol
| Eol
| WordBoundary
| Seq (r1 r2 : regex)
| Alt (r1 r2 : regex)
| Group (i : nat) (r : regex).

(** The matcher's state: the units before the current position (nearest
    first), the units from it on, and the captures made so far. *)
Record MState : Type := mkMState {
  before : jsstring;
  after : jsstring;
  caps : list (nat * jsstring)
}.

Definition lastWord (s : jsstring) : bool :=
  match s with
  | c :: _ => isWordChar c
  | [] => false
  end.

Definition orTry {A} (a b : option A) : option A :=
  match a with
  | Some x => Some x
  | None => b
  end.

(** A greedy quantifier [{min,max}] on a one-unit atom: take as many units
    as allowed, give one back each time the rest of the pattern fails. *)
Fixpoint repeatGreedy {A} (p : cu -> bool) (min : nat) (max : option nat)
    (bef aft : jsstring) (cs : list (nat * jsstring))
    (k : MState -> option A) {struct aft} : option A :=
  let stop := match min with
              | O => k (mkMState bef aft cs)
              | S _ => None
              end in
  match max with
  | Some O => stop
  | _ =>
      match aft with
      | c :: rest =>
          if p c
          then orTry (repeatGreedy p (pred min) (option_map pred max)
                        (c :: bef) rest cs k) stop
          else stop
      | [] => stop
      end
  end.

Fixpoint matchRe {A} (r : regex) (st : MState) (k : MState -> option A)
    {struct r} : option A :=
  match r with
  | Empty => k st
  | Char p =>
      match after st with
      | c :: rest =>
          if p c then k (mkMState (c :: before st) rest (caps st)) else None
      | [] => None
      end
  | Repeat p min max =>
      repeatGreedy p min max (before st) (after st) (caps st) k
  | Bol => match before st with [] => k st | _ => None end
  | Eol => match after st with [] => k st | _ => None end
  | WordBoundary =>
      if xorb (lastWord (before st)) (lastWord (after st)) then k st
      else None
  | Seq r1 r2 => matchRe r1 st (fun st' => matchRe r2 st' k)
  | Alt r1 r2 => orTry (matchRe r1 st k) (matchRe r2 st k)
  | Group i r =>
      matchRe r st (fun st' =>
        let n := (length (after st) - length (after st'))%nat in
        k (mkMState (before st') (after st')
             ((i, firstn n (after st)) :: caps st')))
  end.

(** The result of a match: where it starts, the matched text, what
    follows, and the captures. *)
Record Match : Type := mkMatch {
  m_prefix : jsstring;
  m_text : jsstring;
  m_rest : jsstring;
  m_caps : list (nat * jsstring)
}.

Definition matchAt (r : regex) (bef aft : jsstring) : option Match :=
  matchRe r (mkMState bef aft [])
    (fun st =>
       Some (mkMatch (rev bef)
               (firstn (length aft - length (after st)) aft)
               (after st) (caps st))).

(** The leftmost match: every start index is tried in turn. *)
Fixpoint searchFrom (r : regex) (bef aft : jsstring) {struct aft}
    : option Match :=
  match matchAt r bef aft with
  | Some m => Some m
  | None =>
      match aft with
      | c :: rest => searchFrom r (c :: bef) rest
      | [] => None
      end
  end.

(** [re.exec(s)] / [s.match(re)] for a literal without the [g] flag. *)
Definition exec (r : regex) (s : jsstring) : option Match :=
  searchFrom r [] s.

(** [re.test(s)] *)
Definition test (r : regex) (s : jsstring) : bool :=
  match exec r s with
  | Some _ => true
  | None => false
  end.

(** [m[i]] of a match: the last capture made for group [i]. *)
Fixpoint capture (i : nat) (cs : list (nat * jsstring)) : option jsstring :=
  match cs with
  | [] => None
  | (j, s) :: cs' => if Nat.eqb i j then Some s else capture i cs'
  end.

(** [s.replace(re, by)] for a literal with the [g] flag and a replacement
    free of [$]: matches are replaced left to right; after an empty match
    the search moves on by one unit, which is copied. *)
Fixpoint replaceFrom (fuel : nat) (r : regex) (by_ : jsstring)
    (bef aft : jsstring) : jsstring :=
  match fuel with
  | O => aft
  | S fuel' =>
      match searchFrom r bef aft with
      | None => aft
      | Some m =>
          let skipped := skipn (length bef) (m_prefix m) in
          match m_text m, m_rest m with
          | [], c :: rest =>
              skipped ++ by_ ++ c
                :: replaceFrom fuel' r by_ (c :: rev (m_prefix m)) rest
          | [], [] => skipped ++ by_
          | _ :: _, rest =>
              skipped ++ by_
                ++ replaceFrom fuel' r by_
                     (rev (m_text m) ++ rev (m_prefix m)) rest
          end
      end
  end.

Definition replaceAll (r : regex) (by_ : jsstring) (s : jsstring)
    : jsstring :=
  replaceFrom (S (length s)) r by_ [] s.

(** Atoms.  Under the [i] flag (without [u]) a unit matches a pattern unit
    when both have the same canonical form, the upper case of the unit
    unless that would take a unit above U+007F to ASCII: a pattern made of
    ASCII units therefore matches an ASCII letter in either case, and
    nothing else besides what it matches without the flag. *)
Definition lit (c : string) : cu -> bool :=
  fun x => match js c with [a] => cu_eqb x a | _ => false end.

Arguments lit c%_string.

Definition codeUnit (c : cu) : cu -> bool := fun x => cu_eqb x c.

Definition ci (p : cu -> bool) : cu -> bool :=
  fun x => p (lowerAscii x) || p (upperAscii x).

Definition anyOf (ps : list (cu -> bool)) : cu -> bool :=
  fun x => existsb (fun p => p x) ps.

Definition noneOf (ps : list (cu -> bool)) : cu -> bool :=
  fun x => negb (anyOf ps x).

(** [.] without the [s] flag *)
Definition dot : cu -> bool := fun x => negb (isLineTerminator x).

Definition seq (rs : list regex) : regex := fold_right Seq Empty rs.

Definition plus (p : cu -> bool) : regex := Repeat p 1 None.
Definition star (p : cu -> bool) : regex := Repeat p 0 None.

(** ** The language table *)

(** [LANG_MAP], in the order of the object literal ([Object.entries] lists
    string keys in insertion order). *)
Definition LANG_MAP : list (jsstring * jsstring) :=
  map (fun e : string * string => (js (fst e), js (snd e)))
    [ ("af", "Afrikaans"); ("sq", "Albanian"); ("am", "Amharic")
    ; ("ar", "Arabic"); ("hy", "Armenian"); ("az", "Azerbaijani")
    ; ("eu", "Basque"); ("be", "Belarusian"); ("bn", "Bengali")
    ; ("bs", "Bosnian"); ("bg", "Bulgarian"); ("ca", "Catalan")
    ; ("ceb", "Cebuano"); ("ny", "Chichewa"); ("zh", "Chinese")
    ; ("zh_cn", "Chinese (Simplified)"); ("zh_tw", "Chinese (Traditional)")
    ; ("co", "Corsican"); ("hr", "Croatian"); ("cs", "Czech")
    ; ("da", "Danish"); ("nl", "Dutch"); ("en", "English")
    ; ("eo", "Esperanto"); ("et", "Estonian"); ("tl", "Filipino")
    ; ("fi", "Finnish"); ("fr", "French"); ("fy", "Frisian")
    ; ("gl", "Galician"); ("ka", "Georgian"); ("de", "German")
    ; ("el", "Greek"); ("gu", "Gujarati"); ("ht", "Haitian Creole")
    ; ("ha", "Hausa"); ("haw", "Hawaiian"); ("he", "Hebrew")
    ; ("hi", "Hindi"); ("hmn", "Hmong"); ("hu", "Hungarian")
    ; ("is", "Icelandic"); ("ig", "Igbo"); ("id", "Indonesian")
    ; ("ga", "Irish"); ("it", "Italian"); ("ja", "Japanese")
    ; ("jw", "Javanese"); ("kn", "Kannada"); ("kk", "Kazakh")
    ; ("km", "Khmer"); ("rw", "Kinyarwanda"); ("ko", "Korean")
    ; ("ku", "Kurdish (Kurmanji)"); ("ky", "Kyrgyz"); ("lo", "Lao")
    ; ("la", "Latin"); ("lv", "Latvian"); ("lt", "Lithuanian")
    ; ("lb", "Luxembourgish"); ("mk", "Macedonian"); ("mg", "Malagasy")
    ; ("ms", "Malay"); ("ml", "Malayalam"); ("mt", "Maltese")
    ; ("mi", "Maori"); ("mr", "Marathi"); ("mn", "Mongolian")
    ; ("my", "Myanmar (Burmese)"); ("ne", "Nepali"); ("no", "Norwegian")
    ; ("or", "Odia (Oriya)"); ("ps", "Pashto"); ("fa", "Persian")
    ; ("pl", "Polish"); ("pt", "Portuguese"); ("pa", "Punjabi")
    ; ("ro", "Romanian"); ("ru", "Russian"); ("sm", "Samoan")
    ; ("gd", "Scots Gaelic"); ("sr", "Serbian"); ("st", "Sesotho")
    ; ("sn", "Shona"); ("sd", "Sindhi"); ("si", "Sinhala"); ("sk", "Slovak")
    ; ("sl", "Slovenian"); ("so", "Somali"); ("es", "Spanish")
    ; ("su", "Sundanese"); ("sw", "Swahili"); ("sv", "Swedish")
    ; ("tg", "Tajik"); ("ta", "Tamil"); ("tt", "Tatar"); ("te", "Telugu")
    ; ("th", "Thai"); ("tr", "Turkish"); ("tk", "Turkmen")
    ; ("uk", "Ukrainian"); ("ur", "Urdu"); ("ug", "Uyghur"); ("uz", "Uzbek")
    ; ("vi", "Vietnamese"); ("cy", "Welsh"); ("xh", "Xhosa")
    ; ("yi", "Yiddish"); ("yo", "Yoruba"); ("zu", "Zulu") ]%list%string.

(** [LANG_MAP[key]], over the table's own entries. *)
Fixpoint lookup (key : jsstring) (tbl : list (jsstring * jsstring))
    : option jsstring :=
  match tbl with
  | [] => None
  | (k, v) :: tbl' => if str_eqb k key then Some v else lookup key tbl'
  end.

Definition AUTO_TRANSLATE : bool := true.
Definition AUTO_TRANSLATE_TARGET : jsstring := js "en".

Definition PREFER_RU_FOR_CYRILLIC : bool := true.

(** [/[\u0400-\u04FF]/] *)
Definition CYRILLIC_REGEX : regex := Char (in_range 0x0400 0x04FF).

(** ** Effects *)

(** JavaScript numbers as the script meets them: the integers that
    [fuzz.ratio] returns, and the [-Infinity] of [Math.max()] on no
    arguments. *)
Inductive number : Type :=
| NegInfinity
| Num (z : Z).

Definition num_gtb (a b : number) : bool :=
  match a, b with
  | NegInfinity, _ => false
  | Num _, NegInfinity => true
  | Num x, Num y => (y <? x)%Z
  end.

Definition num_geb (a b : number) : bool :=
  match a, b with
  | _, NegInfinity => true
  | NegInfinity, Num _ => false
  | Num x, Num y => (y <=? x)%Z
  end.

Definition num_max (a b : number) : number :=
  if num_gtb b a then b else a.

(** [Math.max(...xs)] *)
Definition Math_max (xs : list number) : number :=
  fold_left num_max xs NegInfinity.

(** What a console line reports; colours and symbols of the terminal are
    left out.  Each constructor is one call of [console.log]. *)
Inductive ConsoleLine : Type :=
| LogChat (team sender message : jsstring)
| LogWroteCfg (team : bool) (message : jsstring)
| LogTranslationFailed (errMessage : jsstring)
| LogCodeFound (reply : jsstring) (score : number)
| LogWarn (msg : jsstring)
| LogTmSent (lang : jsstring)
| LogTlSent (target : jsstring)
| LogKV (key value : jsstring)
| LogAutoTranslate (team sender readableLang target text : jsstring).

(** What one call of [handleLine] does to the outside, in order. *)
Inductive Event : Type :=
| ETranslate (text : jsstring) (from : option jsstring) (to : jsstring)
| EConsole (l : ConsoleLine)
| EWriteChatCfg (message : jsstring) (team : bool)
| ESetTimeoutPressBindKey (ms : N).

(** The cell [lastForeignMsg]. *)
Record LastMsg : Type := mkLastMsg {
  last_player : jsstring;
  last_message : jsstring;
  last_team : jsstring
}.

Definition Memory := option LastMsg.

Inductive Completion (A : Type) : Type :=
| Normal (a : A)
| Throw (errMessage : jsstring).

Arguments Normal {A} a.
Arguments Throw {A} errMessage.

Record Run (A : Type) : Type := mkRun {
  result : Completion A;
  memory : Memory;
  events : list Event
}.

Definition M (A : Type) : Type := Memory -> Run A.

Definition ret {A} (a : A) : M A := fun m => mkRun (Normal a) m [].

Definition bind {A B} (c : M A) (f : A -> M B) : M B :=
  fun m =>
    let r := c m in
    match result r with
    | Normal a =>
        let r' := f a (memory r) in
        mkRun (result r') (memory r') (events r ++ events r')
    | Throw e => mkRun (Throw e) (memory r) (events r)
    end.

(** [try { c } catch (err) { h err }] *)
Definition tryCatch {A} (c : M A) (h : jsstring -> M A) : M A :=
  fun m =>
    let r := c m in
    match result r with
    | Normal a => r
    | Throw e =>
        let r' := h e (memory r) in
        mkRun (result r') (memory r') (events r ++ events r')
    end.

Definition emit (e : Event) : M unit := fun m => mkRun (Normal tt) m [e].

Definition getLastForeignMsg : M Memory := fun m => mkRun (Normal m) m [].

Definition setLastForeignMsg (v : LastMsg) : M unit :=
  fun _ => mkRun (Normal tt) (Some v) [].

Declare Scope m_scope.
Delimit Scope m_scope with M.

Notation "x <- c ;; k" := (bind c (fun x => k))
  (at level 100, c at next level, right associativity) : m_scope.
Notation "c ;;; k" := (bind c (fun _ => k))
  (at level 100, right associativity) : m_scope.

Local Open Scope m_scope.

(** [log(prefix, msg)] and [console.log(...)] *)
Definition log (l : ConsoleLine) : M unit := emit (EConsole l).

(** [escapeForCfg(text)]: a backslash before every backslash, then one
    before every double quote (U+0022). *)
Definition escapeForCfg (text : jsstring) : jsstring :=
  replaceAll (Char (codeUnit 0x22)) (js "\" ++ [0x22])
    (replaceAll (Char (lit "\")) (js "\\") text).

(** The text that [writeChatCfg] writes to [chat_reader.cfg]. *)
Definition chatCfgText (message : jsstring) (team : bool) : jsstring :=
  let safe := escapeForCfg message in
  let cmd := if team then js "say_team " ++ [0x22] ++ safe ++ [0x22]
             else js "say " ++ [0x22] ++ safe ++ [0x22] in
  js "// Auto-generated by CS2 Chat Translator" ++ [0x0A] ++ cmd ++ [0x0A].

(** [writeChatCfg({ message, team })]: [EWriteChatCfg message team] stands
    for [fs.writeFileSync(CHAT_CFG, chatCfgText message team, "utf8")],
    which is taken to succeed. *)
Definition writeChatCfg (message : jsstring) (team : bool) : M unit :=
  emit (EWriteChatCfg message team) ;;;
  log (LogWroteCfg team message).

(** [setTimeout(pressBindKey, 150)] *)
Definition pressBindKeyLater : M unit := emit (ESetTimeoutPressBindKey 150).

(** ** The regular expression literals of the script *)

Definition az_ : cu -> bool := anyOf [in_range 0x61 0x7A; lit "_"].
Definition underscoreOrSpace : cu -> bool := anyOf [lit "_"; isWhiteSpace].

(** [tm_[a-z_]{2,5}\b] under [i] *)
Definition tm_body : regex :=
  seq [Char (ci (lit "t")); Char (ci (lit "m")); Char (ci (lit "_"));
       Repeat (ci az_) 2 (Some 5%nat); WordBoundary].

(** [_tl\b] under [i] *)
Definition tl_body : regex :=
  seq [Char (ci (lit "_")); Char (ci (lit "t")); Char (ci (lit "l"));
       WordBoundary].

(** [code[_\s]] under [i] *)
Definition code_body : regex :=
  seq [Char (ci (lit "c")); Char (ci (lit "o")); Char (ci (lit "d"));
       Char (ci (lit "e")); Char (ci underscoreOrSpace)].

(** [/^tm_[a-z_]{2,5}\b/i], the test of [handleTm] *)
Definition re_tm : regex := Seq Bol tm_body.

(** [/^_tl\b/i], the test of [handleTl] *)
Definition re_tl : regex := Seq Bol tl_body.

(** [/^code[_\s]/i] *)
Definition re_code_prefix : regex := Seq Bol code_body.

(** [/^tm_[a-z_]{2,5}\b|^_tl\b|^code[_\s]/i], the test of [handleLine] *)
Definition re_command : regex := Alt re_tm (Alt re_tl re_code_prefix).

(** [/^(_tl\b|tm_[a-z_]{2,5}\b|code[_\s])/i], the test of
    [autoTranslateToConsole] *)
Definition re_known : regex :=
  Seq Bol (Group 1 (Alt tl_body (Alt tm_body code_body))).

(** [/^[.\s]+$/] *)
Definition re_dots : regex :=
  seq [Bol; plus (anyOf [lit "."; isWhiteSpace]); Eol].

(** [/^code[_\s]+(.+)$/i], the match of [handleCodeLang] *)
Definition re_code : regex :=
  seq [Bol; Char (ci (lit "c")); Char (ci (lit "o")); Char (ci (lit "d"));
       Char (ci (lit "e")); plus (ci underscoreOrSpace);
       Group 1 (plus (ci dot)); Eol].

(** [/\[(CT|T|ALL)\]\s+([^:]+):\s(.+)/], the match of [handleLine] *)
Definition re_line : regex :=
  seq [Char (lit "[");
       Group 1 (Alt (seq [Char (lit "C"); Char (lit "T")])
                  (Alt (seq [Char (lit "T")])
                     (seq [Char (lit "A"); Char (lit "L"); Char (lit "L")])));
       Char (lit "]"); plus isWhiteSpace;
       Group 2 (plus (noneOf [lit ":"])); Char (lit ":"); Char isWhiteSpace;
       Group 3 (plus dot)].

(** ** The translation API and the other imports *)

(** What [translate] resolves to: [res.text] and [res.from?.language?.iso]. *)
Record Response : Type := mkResponse {
  r_text : jsstring;
  r_iso : option jsstring
}.

(** How the promise of [translate] settles: it resolves to a response, or
    rejects with an error whose [message] is [errMessage]. *)
Inductive Outcome : Type :=
| Resolved (res : Response)
| Rejected (errMessage : jsstring).

(** What [smartTranslate] returns: a response, with [__forcedFrom] when the
    Russian override was applied. *)
Record Translation : Type := mkTranslation {
  tr_text : jsstring;
  tr_iso : option jsstring;
  forcedFrom : option jsstring
}.

Definition unforced (res : Response) : Translation :=
  mkTranslation (r_text res) (r_iso res) None.

(** [{ code, name, score }] of [bestLangMatch] *)
Record LangMatch : Type := mkLangMatch {
  lm_code : jsstring;
  lm_name : jsstring;
  lm_score : number
}.

(** [{ code, name, aliases }] of [buildLangCandidates] *)
Record Candidate : Type := mkCandidate {
  code : jsstring;
  name : jsstring;
  aliases : list jsstring
}.

(** [set.add(x)] on a [Set] of strings kept in insertion order *)
Definition setAdd (x : jsstring) (set : list jsstring) : list jsstring :=
  if existsb (str_eqb x) set then set else set ++ [x].

(** [new Set(xs)] *)
Definition newSet (xs : list jsstring) : list jsstring :=
  fold_left (fun set x => setAdd x set) xs [].

Definition isAscii (c : cu) : bool := c <=? 0x7F.

(** What the script imports. *)
Class Imports : Type := {
  (** [translate(text, { from, to })] of google-translate-api-x: the
      outcome of the call with these arguments (one call of [handleLine]
      never passes the same arguments twice). *)
  translate : jsstring -> option jsstring -> jsstring -> Outcome;
  (** [fuzz.ratio(a, b)] of fuzzball *)
  ratio : jsstring -> jsstring -> Z;
  (** The case mappings of strings that hold a unit above U+007F. *)
  unicodeLower : jsstring -> jsstring;
  unicodeUpper : jsstring -> jsstring
}.

Section Program.

Context {imports : Imports}.

(** [s.toLowerCase()] and [s.toUpperCase()]: on ASCII text only the
    letters A-Z (a-z) change. *)
Definition toLowerCase (s : jsstring) : jsstring :=
  if forallb isAscii s then map lowerAscii s else unicodeLower s.

Definition toUpperCase (s : jsstring) : jsstring :=
  if forallb isAscii s then map upperAscii s else unicodeUpper s.

(** [langName(iso)]; properties that [LANG_MAP] inherits from
    [Object.prototype] are not modelled. *)
Definition langName (iso : jsstring) : jsstring :=
  let key := toLowerCase (orElse (Some iso) []) in
  orElse (lookup key LANG_MAP)
    (orElse (Some (toUpperCase key)) (js "UNKNOWN")).

(** [await translate(text, { from, to })] *)
Definition callTranslate (text : jsstring) (from : option jsstring)
    (to : jsstring) : M Response :=
  fun m =>
    mkRun (match translate text from to with
           | Resolved res => Normal res
           | Rejected e => Throw e
           end) m [ETranslate text from to].

(** [guess] of [smartTranslate]:
    [(res.from?.language?.iso || "").toLowerCase()] *)
Definition guessOf (res : Response) : jsstring :=
  toLowerCase (orElse (r_iso res) []).

(** [shouldForceRu] of [smartTranslate] *)
Definition shouldForceRu (text : jsstring) (res : Response) : bool :=
  PREFER_RU_FOR_CYRILLIC && test CYRILLIC_REGEX text
  && negb (str_eqb (guessOf res) (js "ru")).

(** [smartTranslate(text, toLang)]: the inner [try] returns the forced
    response from the function; when its call fails the function goes
    on to [return res]. *)
Definition smartTranslate (text toLang : jsstring) : M Translation :=
  tryCatch
    (res <- callTranslate text None toLang ;;
     if shouldForceRu text res then
       returned <-
         tryCatch
           (forced <- callTranslate text (Some (js "ru")) toLang ;;
            ret (Some (mkTranslation (r_text forced) (r_iso forced)
                         (Some (js "ru")))))
           (fun _ => ret None) ;;
       match returned with
       | Some forced => ret forced
       | None => ret (unforced res)
       end
     else ret (unforced res))
    (fun errMessage =>
       log (LogTranslationFailed errMessage) ;;;
       ret (mkTranslation text (Some (js "unknown")) None)).

(** [(res.__forcedFrom || res.from?.language?.iso || "unknown")
    .toLowerCase()] *)
Definition sourceIso (res : Translation) : jsstring :=
  toLowerCase
    (orElse (forcedFrom res) (orElse (tr_iso res) (js "unknown"))).

(** [originalLangReadable(res)] *)
Definition originalLangReadable (res : Translation) : jsstring :=
  langName (sourceIso res).

(** [normalizeQueryLoose(s)] *)
Definition normalizeQueryLoose (s : jsstring) : jsstring :=
  trim
    (replaceAll (plus isWhiteSpace) (js " ")
       (replaceAll (Char (anyOf [lit "("; lit ")"])) (js " ")
          (replaceAll (plus (anyOf [lit "_"; lit "-"])) (js " ")
             (toLowerCase s)))).

(** [name.replace(/\s*\([^)]*\)\s*/g, "").trim()] *)
Definition bareName (name : jsstring) : jsstring :=
  trim
    (replaceAll
       (seq [star isWhiteSpace; Char (lit "("); star (noneOf [lit ")"]);
             Char (lit ")"); star isWhiteSpace])
       [] name).

Definition extraAliases (code : jsstring) : list jsstring :=
  (if str_eqb code (js "zh_cn")
   then [js "simplified chinese"; js "chinese simplified"] else [])
  ++ (if str_eqb code (js "zh_tw")
      then [js "traditional chinese"; js "chinese traditional"] else [])
  ++ (if str_eqb code (js "ga") then [js "irish gaelic"] else [])
  ++ (if str_eqb code (js "gd")
      then [js "scottish gaelic"; js "scots gaelic"] else [])
  ++ (if str_eqb code (js "jw") then [js "javanese"] else [])
  ++ (if str_eqb code (js "my") then [js "burmese"] else [])
  ++ (if str_eqb code (js "tl") then [js "tagalog"] else [])
  ++ (if str_eqb code (js "pt")
      then [js "brazilian portuguese"; js "brasilianisch"] else [])
  ++ (if str_eqb code (js "he") then [js "ivrit"] else []).

(** [buildLangCandidates()] *)
Definition buildLangCandidates : list Candidate :=
  map (fun e : jsstring * jsstring =>
         let (code, name) := e in
         let base := name in
         let bare := bareName name in
         let aliases :=
           newSet [toLowerCase base; toLowerCase bare; toLowerCase code] in
         mkCandidate code base
           (fold_left (fun set x => setAdd x set) (extraAliases code)
              aliases))
    LANG_MAP.

(** The first loop of [bestLangMatch]: the first candidate one of whose
    aliases is [q]. *)
Fixpoint exactAlias (q : jsstring) (candidates : list Candidate)
    : option LangMatch :=
  match candidates with
  | [] => None
  | c :: rest =>
      if existsb (fun a => str_eqb a q) (aliases c)
      then Some (mkLangMatch (code c) (name c) (Num 100))
      else exactAlias q rest
  end.

Definition aliasScore (q : jsstring) (c : Candidate) : number :=
  Math_max (map (fun a => Num (ratio q a)) (aliases c)).

(** The second loop: [best] after the candidates have been scored. *)
Definition fuzzyBest (q : jsstring) (candidates : list Candidate)
    (best : option LangMatch) : option LangMatch :=
  fold_left
    (fun best c =>
       let score := aliasScore q c in
       match best with
       | None => Some (mkLangMatch (code c) (name c) score)
       | Some b =>
           if num_gtb score (lm_score b)
           then Some (mkLangMatch (code c) (name c) score)
           else best
       end)
    candidates best.

(** [bestLangMatch(query)] *)
Definition bestLangMatch (query : jsstring) : option LangMatch :=
  let q := normalizeQueryLoose query in
  match q with
  | [] => None
  | _ :: _ =>
      let candidates := buildLangCandidates in
      match exactAlias q candidates with
      | Some found => Some found
      | None =>
          match fuzzyBest q candidates None with
          | Some best =>
              if num_geb (lm_score best) (Num 55) then Some best else None
          | None => None
          end
      end
  end.

(** The reply of [handleCodeLang] when nothing matches. *)
Definition noMatchReply (query : jsstring) : jsstring :=
  js "No close language match for " ++ [0x22] ++ query ++ [0x22]
  ++ js ". Try tm_en, tm_de, tm_fr, tm_es, tm_ru, tm_pt...".

(** [handleCodeLang({ isTeam, message })] *)
Definition handleCodeLang (isTeam : bool) (message : jsstring) : M bool :=
  match exec re_code message with
  | None => ret false
  | Some m =>
      let query := trim (orElse (capture 1 (m_caps m)) []) in
      match query with
      | [] => ret true
      | _ :: _ =>
          match bestLangMatch query with
          | Some found =>
              let reply :=
                js "For " ++ lm_name found ++ js " use tm_"
                ++ lm_code found in
              writeChatCfg reply isTeam ;;;
              pressBindKeyLater ;;;
              log (LogCodeFound reply (lm_score found)) ;;;
              ret true
          | None =>
              let reply := noMatchReply query in
              writeChatCfg reply isTeam ;;;
              pressBindKeyLater ;;;
              log (LogWarn reply) ;;;
              ret true
          end
      end
  end.

(** [`${sender} said - ${translated} - (from ${originalLang})`] *)
Definition saidReply (sender translated originalLang : jsstring)
    : jsstring :=
  sender ++ js " said - " ++ translated ++ js " - (from " ++ originalLang
  ++ js ")".

(** [handleTm({ isTeam, sender, message })] *)
Definition handleTm (isTeam : bool) (sender message : jsstring) : M bool :=
  if negb (test re_tm message) then ret false
  else
    let parts := splitSpace message in
    let cmd := hd [] parts in
    let rest := tl parts in
    let lang := toLowerCase (skipn 3 cmd) in
    let text := trim (join (js " ") rest) in
    match text with
    | [] => ret true
    | _ :: _ =>
        res <- smartTranslate text lang ;;
        let translated := tr_text res in
        let originalLang := originalLangReadable res in
        let output := saidReply sender translated originalLang in
        writeChatCfg output isTeam ;;;
        pressBindKeyLater ;;;
        log (LogTmSent lang) ;;;
        log (LogKV (js "from") originalLang) ;;;
        log (LogKV (js "text") translated) ;;;
        ret true
    end.

(** [handleTl({ isTeam, message })]; [lastForeignMsg] is read once, as
    no other line is handled in between. *)
Definition handleTl (isTeam : bool) (message : jsstring) : M bool :=
  if negb (test re_tl message) then ret false
  else
    last <- getLastForeignMsg ;;
    match last with
    | None =>
        let msg := js "No recent message to translate." in
        writeChatCfg msg isTeam ;;;
        pressBindKeyLater ;;;
        log (LogWarn msg) ;;;
        ret true
    | Some lastForeignMsg =>
        let parts := splitSpace message in
        let target :=
          orElse (option_map toLowerCase (nth_error parts 1)) (js "en") in
        res <- smartTranslate (last_message lastForeignMsg) target ;;
        let translated := tr_text res in
        let originalLang := originalLangReadable res in
        let output :=
          saidReply (last_player lastForeignMsg) translated originalLang in
        writeChatCfg output isTeam ;;;
        pressBindKeyLater ;;;
        log (LogTlSent target) ;;;
        log (LogKV (js "from") originalLang) ;;;
        log (LogKV (js "player") (last_player lastForeignMsg)) ;;;
        log (LogKV (js "text") translated) ;;;
        ret true
    end.

(** [autoTranslateToConsole({ team, sender, message })] *)
Definition autoTranslateToConsole (team sender message : jsstring)
    : M unit :=
  if negb AUTO_TRANSLATE then ret tt
  else
    match message with
    | [] => ret tt
    | _ :: _ =>
        if test re_known message then ret tt
        else if test re_dots message then ret tt
        else
          res <- smartTranslate message AUTO_TRANSLATE_TARGET ;;
          let fromIso := sourceIso res in
          if negb (str_eqb fromIso (toLowerCase AUTO_TRANSLATE_TARGET))
          then
            let readableLang := langName fromIso in
            log (LogAutoTranslate team sender readableLang
                   (toUpperCase AUTO_TRANSLATE_TARGET) (tr_text res))
          else ret tt
    end.

(** The fields of a chat line that [handleLine] takes from the match. *)
Definition lineTeam (m : Match) : jsstring :=
  orElse (capture 1 (m_caps m)) [].

Definition lineSender (m : Match) : jsstring :=
  trim (orElse (capture 2 (m_caps m)) []).

Definition lineMessage (m : Match) : jsstring :=
  trim (orElse (capture 3 (m_caps m)) []).

(** [handleLine(line)] *)
Definition handleLine (line : jsstring) : M unit :=
  match exec re_line line with
  | None => ret tt
  | Some m =>
      let team := lineTeam m in
      let message := lineMessage m in
      let sender := lineSender m in
      let isTeam := str_eqb team (js "CT") || str_eqb team (js "T") in
      log (LogChat team sender message) ;;;
      (if negb (test re_command message) && negb (test re_dots message)
       then setLastForeignMsg (mkLastMsg sender message team)
       else ret tt) ;;;
      handledTl <- handleTl isTeam message ;;
      if handledTl then ret tt
      else
        handledCode <- handleCodeLang isTeam message ;;
        if handledCode then ret tt
        else
          handledTm <- handleTm isTeam sender message ;;
          if handledTm then ret tt
          else autoTranslateToConsole team sender message
  end.

End Program.

(** * The command line *)

(** The value that a [--set-...] flag hands to [updateConfigKey]:
    [path.resolve(args[1])] for the two paths ([path.resolve] itself is
    not modelled, its argument is recorded), [args[1]] as it is for the
    key. *)
Inductive CliValue : Type :=
| PathResolve (arg : jsstring)
| Verbatim (arg : jsstring).

(** What the script does with its arguments: each of the first five
    branches ends in [process.exit(0)], so that at most one of them runs;
    the default is [start()]. *)
Inductive CliAction : Type :=
| PrintCliHelp
| InitConfigCli
| UpdateConfigKey (key : jsstring) (value : CliValue)
| Start.

(** [args.includes(x)] *)
Definition includes (args : list jsstring) (x : jsstring) : bool :=
  existsb (fun a => str_eqb a x) args.

(** [args[0] === flag] *)
Definition firstIs (args : list jsstring) (flag : jsstring) : bool :=
  match nth_error args 0 with
  | Some a => str_eqb a flag
  | None => false
  end.

(** The top level of the script on [args = process.argv.slice(2)]. *)
Definition cliAction (args : list jsstring) : CliAction :=
  if includes args (js "--help") || includes args (js "-h")
  then PrintCliHelp
  else if firstIs args (js "--init-config") then InitConfigCli
  else
    match firstIs args (js "--set-log-path"), nth_error args 1 with
    | true, Some (c :: s) =>
        UpdateConfigKey (js "logPath") (PathResolve (c :: s))
    | _, _ =>
        match firstIs args (js "--set-cfg-dir"), nth_error args 1 with
        | true, Some (c :: s) =>
            UpdateConfigKey (js "cfgDir") (PathResolve (c :: s))
        | _, _ =>
            match firstIs args (js "--set-bind-key"), nth_error args 1 with
            | true, Some (c :: s) =>
                UpdateConfigKey (js "bindKey") (Verbatim (c :: s))
            | _, _ => Start
            end
        end
    end.

(** * Vocabulary of the statements *)

Definition isSome {A} (o : option A) : bool :=
  match o with
  | Some _ => true
  | None => false
  end.

Definition isEmpty (s : jsstring) : bool :=
  match s with
  | [] => true
  | _ :: _ => false
  end.

(** A pattern each of whose alternatives starts with [^]. *)
Fixpoint anchored (r : regex) : bool :=
  match r with
  | Bol => true
  | Seq r1 _ => anchored r1
  | Alt r1 r2 => anchored r1 && anchored r2
  | Group _ r1 => anchored r1
  | _ => false
  end.

(** Two matcher states at the same position of the same input. *)
Definition samePos (a b : MState) : Prop :=
  before a = before b /\ after a = after b.

(** The body of a pattern [^body] matches at index 0. *)
Definition startsWith (body : regex) (s : jsstring) : bool :=
  isSome (matchRe body (mkMState [] s []) (fun st => Some st)).

(** The class [[.\s]]. *)
Definition dotOrSpace : cu -> bool := anyOf [lit "."; isWhiteSpace].

(** A message made of periods and white space only. *)
Definition onlyDotsOrSpace (message : jsstring) : bool :=
  forallb dotOrSpace message.

(** A message that matches one of the three command patterns
    [^tm_[a-z_]{2,5}\b], [^_tl\b], [^code[_\s]] (case-insensitively); a
    plain message matches none. *)
Definition isCommand (message : jsstring) : bool :=
  test re_tm message || test re_tl message || test re_code_prefix message.

Definition isPlain (message : jsstring) : bool := negb (isCommand message).

(** The chat replies (writes of [chat_reader.cfg]), the console lines and
    the calls of the translation API among the events of a run. *)
Definition replies (evs : list Event) : list (jsstring * bool) :=
  flat_map (fun e => match e with
                     | EWriteChatCfg message team => [(message, team)]
                     | _ => []
                     end) evs.

Definition consoleLines (evs : list Event) : list ConsoleLine :=
  flat_map (fun e => match e with
                     | EConsole l => [l]
                     | _ => []
                     end) evs.

Definition translateCalls (evs : list Event)
    : list (jsstring * option jsstring * jsstring) :=
  flat_map (fun e => match e with
                     | ETranslate text from to => [(text, from, to)]
                     | _ => []
                     end) evs.

(** A computation that never throws. *)
Definition completes {A} (c : M A) : Prop :=
  forall mem, exists a, result (c mem) = Normal a.

(** The first token of a message as [split(" ")] cuts it, and as cutting
    at any white space would. *)
Fixpoint takeWhile (p : cu -> bool) (s : jsstring) : jsstring :=
  match s with
  | c :: s' => if p c then c :: takeWhile p s' else []
  | [] => []
  end.

Definition firstSpaceToken (message : jsstring) : jsstring :=
  takeWhile (fun c => negb (c =? 0x20)) message.

Definition firstWhitespaceToken (message : jsstring) : jsstring :=
  takeWhile (fun c => negb (isWhiteSpace c)) message.

(** The text of a [tm_] command: what follows the first U+0020, trimmed. *)
Definition tmText (message : jsstring) : jsstring :=
  trim (join (js " ") (tl (splitSpace message))).

(** The language code that [handleTm] takes from a [tm_] command. *)
Definition tmLang {imports : Imports} (message : jsstring) : jsstring :=
  toLowerCase (skipn 3 (firstSpaceToken message)).

(** The messages that [handleLine] answers in chat: a [_tl] command, a
    [code] command with a query, a [tm_] command with a text. *)
Definition wantsReply (message : jsstring) : bool :=
  test re_tl message
  || isSome (exec re_code message)
  || (test re_tm message && negb (isEmpty (tmText message))).

(** What a call of [smartTranslate] returns and does, by the outcomes of
    the API. *)
Definition smartOutcome {imports : Imports} (text toLang : jsstring)
    : Translation * list Event :=
  let first := ETranslate text None toLang in
  let second := ETranslate text (Some (js "ru")) toLang in
  match translate text None toLang with
  | Rejected e =>
      (mkTranslation text (Some (js "unknown")) None,
       [first; EConsole (LogTranslationFailed e)])
  | Resolved res =>
      if shouldForceRu text res then
        match translate text (Some (js "ru")) toLang with
        | Resolved forced =>
            (mkTranslation (r_text forced) (r_iso forced) (Some (js "ru")),
             [first; second])
        | Rejected _ => (unforced res, [first; second])
        end
      else (unforced res, [first])
  end.

(** The chat reply of a [code] command. *)
Definition codeReply {imports : Imports} (query : jsstring) : jsstring :=
  match bestLangMatch query with
  | Some found => js "For " ++ lm_name found ++ js " use tm_" ++ lm_code found
  | None => noMatchReply query
  end.

(** [isTeam] of [handleLine], and [lastForeignMsg] after its tracking
    statement. *)
Definition lineIsTeam (m : Match) : bool :=
  str_eqb (lineTeam m) (js "CT") || str_eqb (lineTeam m) (js "T").

Definition tracked (m : Match) (mem : Memory) : Memory :=
  if negb (test re_command (lineMessage m))
     && negb (test re_dots (lineMessage m))
  then Some (mkLastMsg (lineSender m) (lineMessage m) (lineTeam m))
  else mem.

(** The order of scores. *)
Definition num_le (a b : number) : Prop := num_geb b a = true.
Definition num_lt (a b : number) : Prop := num_gtb b a = true.

(** ** Stand-ins for the imports, for concrete runs *)

(** A translation service that knows two phrases, fails on the text
    [fail] and otherwise echoes the text as English. *)
Definition privet : jsstring := [0x41F; 0x440; 0x438; 0x432; 0x435; 0x442].

Definition demoTranslate (text : jsstring) (from : option jsstring)
    (to : jsstring) : Outcome :=
  if str_eqb text (js "hello friend")
  then Resolved (mkResponse (js "Hallo Freund") (Some (js "en")))
  else if str_eqb text privet
  then match from with
       | Some _ => Resolved (mkResponse (js "Hallo") (Some (js "ru")))
       | None => Resolved (mkResponse (js "Privet") (Some (js "bg")))
       end
  else if str_eqb text (js "fail") then Rejected (js "boom")
  else Resolved (mkResponse text (Some (js "en"))).

(** A similarity score: 100 for equal strings, 60 when one string starts
    with the other, 0 otherwise. *)
Fixpoint isPrefix (a b : jsstring) : bool :=
  match a, b with
  | [], _ => true
  | x :: a', y :: b' => cu_eqb x y && isPrefix a' b'
  | _ :: _, [] => false
  end.

Definition demoRatio (a b : jsstring) : Z :=
  if str_eqb a b then 100%Z
  else if isPrefix a b || isPrefix b a then 60%Z
  else 0%Z.

Definition demo : Imports :=
  {| translate := demoTranslate;
     ratio := demoRatio;
     unicodeLower := fun s => s;
     unicodeUpper := fun s => s |}.

(** ** Vocabulary of the further properties *)

(** The notice of [handleTl] when nothing is remembered, and the target
    language it takes from the message: [parts[1]?.toLowerCase() || "en"]. *)
Definition noRecentMessage : jsstring :=
  js "No recent message to translate.".

Definition tlTarget {imports : Imports} (message : jsstring) : jsstring :=
  orElse (option_map toLowerCase (nth_error (splitSpace message) 1))
    (js "en").

(** The writes of [chat_reader.cfg] and the key-press timers among the
    events of a run, in order. *)
Definition outbound (evs : list Event) : list Event :=
  filter (fun e => match e with
                   | EWriteChatCfg _ _ => true
                   | ESetTimeoutPressBindKey _ => true
                   | _ => false
                   end) evs.

(** What is left of a string after its longest prefix in a class. *)
Fixpoint dropWhile (p : cu -> bool) (s : jsstring) : jsstring :=
  match s with
  | c :: s' => if p c then dropWhile p s' else s
  | [] => []
  end.

(** Every unit of a class replaced by a text, and every run of units of
    a class replaced by one copy of a text ([inRun]: the unit before was
    in the class). *)
Definition substUnits (p : cu -> bool) (by_ s : jsstring) : jsstring :=
  flat_map (fun c => if p c then by_ else [c]) s.

Fixpoint collapseRuns (p : cu -> bool) (by_ : jsstring) (inRun : bool)
    (s : jsstring) : jsstring :=
  match s with
  | [] => []
  | c :: s' =>
      if p c
      then (if inRun then [] else by_) ++ collapseRuns p by_ true s'
      else c :: collapseRuns p by_ false s'
  end.

(** A backslash before a backslash or a double quote. *)
Definition escapeUnit (c : cu) : jsstring :=
  if c =? 0x5C then [0x5C; 0x5C]
  else if c =? 0x22 then [0x5C; 0x22]
  else [c].

(** What a reader of a quoted argument reads: a backslash stands for the
    unit after it, and the first bare double quote ends the argument. *)
Fixpoint readQuoted (s : jsstring) : jsstring :=
  match s with
  | [] => []
  | c :: s' =>
      if c =? 0x22 then []
      else if c =? 0x5C
      then match s' with
           | d :: s'' => d :: readQuoted s''
           | [] => []
           end
      else c :: readQuoted s'
  end.

(** A result of [bestLangMatch] that is the given entry, found by an exact
    alias. *)
Definition isExactMatch (found : option LangMatch) (code name : jsstring)
    : bool :=
  match found with
  | Some (mkLangMatch c n (Num 100)) => str_eqb c code && str_eqb n name
  | _ => false
  end.

(** A [tm_] command for a language code and a text. *)
Definition tmCommand (code text : jsstring) : jsstring :=
  js "tm_" ++ code ++ js " " ++ text.

(** A [code] command for a language name, with one of its separators. *)
Definition codeCommand (sep name : jsstring) : jsstring :=
  js "code" ++ sep ++ name.

(** A message that [handleLine] passes on to [handleCodeLang], which then
    looks up exactly [name]. *)
Definition asksFor (message name : jsstring) : bool :=
  negb (test re_tl message) && test re_command message
  && match exec re_code message with
     | Some mc => str_eqb (trim (orElse (capture 1 (m_caps mc)) [])) name
     | None => false
     end.

(** A translation API that resolves every call to the text as it is, with
    the given source code. *)
Definition detects (iso : option jsstring) : Imports :=
  {| translate := fun text _ _ => Resolved (mkResponse text iso);
     ratio := demoRatio;
     unicodeLower := fun s => s;
     unicodeUpper := fun s => s |}.

(** * Properties *)

Unset Implicit Arguments.

(** ** The matcher *)

Lemma anchored_fails A (r : regex) :
  anchored r = true ->
  forall (st : MState) (k : MState -> option A),
    before st <> [] -> matchRe r st k = None.
Proof.
  induction r; simpl; try discriminate; intros Ha st k Hb.
  - destruct (before st); congruence.
  - apply IHr1; assumption.
  - apply andb_true_iff in Ha as [H1 H2].
    rewrite IHr1, IHr2 by assumption. reflexivity.
  - apply IHr; assumption.
Qed.

Lemma searchFrom_anchored r c bef aft :
  anchored r = true -> searchFrom r (c :: bef) aft = None.
Proof.
  intros Ha. revert c bef. induction aft as [|a aft IH]; intros c bef; simpl;
    unfold matchAt; rewrite anchored_fails by (assumption || discriminate); auto.
Qed.

Lemma exec_anchored r s :
  anchored r = true -> exec r s = matchAt r [] s.
Proof.
  intros Ha. unfold exec. destruct s as [|c s]; simpl.
  - destruct (matchAt r [] []); reflexivity.
  - destruct (matchAt r [] (c :: s)); auto using searchFrom_anchored.
Qed.

Lemma isSome_orTry A (a b : option A) :
  isSome (orTry a b) = isSome a || isSome b.
Proof. destruct a; reflexivity. Qed.

Lemma repeatGreedy_caps A B p aft :
  forall min max bef cs cs' (k : MState -> option A) (k' : MState -> option B),
    (forall a b, samePos a b -> isSome (k a) = isSome (k' b)) ->
    isSome (repeatGreedy p min max bef aft cs k)
    = isSome (repeatGreedy p min max bef aft cs' k').
Proof.
  induction aft as [|c aft IH]; intros min max bef cs cs' k k' Hk; simpl.
  - destruct max as [[|n]|], min; simpl; auto; apply Hk; split; reflexivity.
  - assert (Hstop : isSome match min with O => k (mkMState bef (c :: aft) cs) | S _ => None end
                    = isSome match min with O => k' (mkMState bef (c :: aft) cs') | S _ => None end).
    { destruct min; auto. apply Hk; split; reflexivity. }
    destruct max as [[|n]|]; auto; destruct (p c); auto;
      rewrite !isSome_orTry; f_equal; auto.
Qed.

Lemma matchRe_caps A B (r : regex) :
  forall (k : MState -> option A) (k' : MState -> option B),
    (forall a b, samePos a b -> isSome (k a) = isSome (k' b)) ->
    forall st st', samePos st st' ->
      isSome (matchRe r st k) = isSome (matchRe r st' k').
Proof.
  induction r; intros k k' Hk st st' Hs; pose proof Hs as [Hb Ha]; simpl.
  - auto.
  - rewrite <- Ha. destruct (after st) as [|c rest]; auto. rewrite <- Hb.
    destruct (p c); auto. apply Hk; split; reflexivity.
  - rewrite <- Ha, <- Hb. apply repeatGreedy_caps; assumption.
  - rewrite <- Hb. destruct (before st); auto.
  - rewrite <- Ha. destruct (after st); auto.
  - rewrite <- Ha, <- Hb. destruct (xorb _ _); auto.
  - apply IHr1; [|assumption].
    intros a b Hab. apply IHr2; assumption.
  - rewrite !isSome_orTry. f_equal; auto.
  - apply IHr; [|assumption].
    intros a b [Hb' Ha']. apply Hk. split; simpl; assumption.
Qed.

Lemma test_anchored r s :
  anchored r = true -> test r s = isSome (matchAt r [] s).
Proof.
  intros Ha. unfold test. rewrite exec_anchored by assumption.
  destruct (matchAt r [] s); reflexivity.
Qed.

Lemma test_bol body s : test (Seq Bol body) s = startsWith body s.
Proof.
  rewrite test_anchored by reflexivity. unfold matchAt, startsWith. simpl.
  apply matchRe_caps; [reflexivity | split; reflexivity].
Qed.

Lemma test_re_command s :
  test re_command s
  = test re_tm s || test re_tl s || test re_code_prefix s.
Proof.
  unfold re_command. rewrite test_anchored by reflexivity.
  unfold matchAt. cbn [matchRe]. rewrite !isSome_orTry.
  unfold re_tm, re_tl, re_code_prefix.
  rewrite !test_anchored by reflexivity. unfold matchAt.
  rewrite orb_assoc. reflexivity.
Qed.

Lemma test_re_known s :
  test re_known s
  = test re_tl s || test re_tm s || test re_code_prefix s.
Proof.
  unfold re_known, re_tm, re_tl, re_code_prefix.
  rewrite !test_bol. unfold startsWith. cbn [matchRe].
  rewrite <- orb_assoc, <- !isSome_orTry.
  apply (matchRe_caps _ _ (Alt tl_body (Alt tm_body code_body)));
    [reflexivity | split; reflexivity].
Qed.

(** A greedy quantifier whose continuation only accepts the end of the
    input succeeds exactly when every remaining unit is in the class. *)
Lemma repeatGreedy_to_end A p (k : MState -> option A) :
  (forall st, after st <> [] -> k st = None) ->
  (forall st, after st = [] -> isSome (k st) = true) ->
  forall aft min bef cs,
    isSome (repeatGreedy p min None bef aft cs k)
    = forallb p aft && (min <=? length aft)%nat.
Proof.
  intros Hk1 Hk2. induction aft as [|c aft IH]; intros min bef cs.
  - simpl. destruct min; simpl; auto.
  - cbn [repeatGreedy forallb length].
    assert (Hstop : match min with
                    | O => k (mkMState bef (c :: aft) cs)
                    | S _ => None
                    end = None).
    { destruct min; auto. apply Hk1. discriminate. }
    rewrite Hstop. destruct (p c); simpl; auto.
    rewrite isSome_orTry, IH, orb_false_r.
    destruct min; reflexivity.
Qed.

Lemma test_re_dots s :
  test re_dots s = negb (isEmpty s) && forallb dotOrSpace s.
Proof.
  unfold re_dots. cbn [seq fold_right]. rewrite test_bol.
  unfold startsWith, plus. cbn [matchRe before after caps].
  rewrite repeatGreedy_to_end.
  - destruct s; simpl; [reflexivity | apply andb_true_r].
  - intros st Hst. destruct (after st); congruence.
  - intros st Hst. rewrite Hst. reflexivity.
Qed.

(** A one-unit pattern is found when some unit of the input is in the
    class. *)
Lemma searchFrom_Char p aft :
  forall bef, isSome (searchFrom (Char p) bef aft) = existsb p aft.
Proof.
  induction aft as [|c aft IH]; intros bef; simpl; auto.
  unfold matchAt. simpl. destruct (p c); simpl; auto.
Qed.

Lemma test_Char p s : test (Char p) s = existsb p s.
Proof.
  unfold test, exec. rewrite <- searchFrom_Char with (bef := []).
  destruct (searchFrom (Char p) [] s); reflexivity.
Qed.

(** ** Classes of code units *)

Ltac unfold_classes :=
  unfold ci, az_, underscoreOrSpace, dotOrSpace, dot, anyOf, noneOf, lit,
    codeUnit, cu_eqb, lowerAscii, upperAscii, isWhiteSpace, isLineTerminator,
    isWordChar, in_range in *;
  cbn [js list_ascii_of_string map N_of_ascii existsb] in *.

Ltac split_tests :=
  repeat match goal with
         | |- context [N.leb ?a ?b] => destruct (N.leb_spec a b)
         | |- context [N.eqb ?a ?b] => destruct (N.eqb_spec a b)
         | H : context [N.leb ?a ?b] |- _ => destruct (N.leb_spec a b)
         | H : context [N.eqb ?a ?b] |- _ => destruct (N.eqb_spec a b)
         end.

Ltac solve_class :=
  unfold_classes; split_tests; cbn in *;
  try discriminate; try reflexivity; try lia.

Lemma first_units_differ c :
  (ci (lit "_") c = true -> ci (lit "t") c = false /\ ci (lit "c") c = false)
  /\ (ci (lit "t") c = true -> ci (lit "c") c = false).
Proof. split; [intros H; split | intros H]; revert H; solve_class. Qed.

(** The three command patterns exclude one another: they differ in their
    first unit. *)
Lemma commands_exclusive s :
  (test re_tl s = true -> test re_tm s = false /\ test re_code_prefix s = false)
  /\ (test re_tm s = true -> test re_code_prefix s = false).
Proof.
  unfold re_tl, re_tm, re_code_prefix. rewrite !test_bol.
  unfold startsWith. destruct s as [|c s]; [split; discriminate|].
  cbn [tl_body tm_body code_body seq fold_right matchRe after before caps].
  destruct (first_units_differ c) as [H1 H2].
  destruct (ci (lit "_") c) eqn:E1.
  - destruct H1 as [-> ->]; auto.
  - destruct (ci (lit "t") c) eqn:E2.
    + rewrite H2 by reflexivity. split; [discriminate | reflexivity].
    + split; discriminate.
Qed.

(** What a successful greedy quantifier consumed. *)
Lemma repeatGreedy_inv A p (k : MState -> option A) x aft :
  forall min max bef cs,
    repeatGreedy p min max bef aft cs k = Some x ->
    exists n, (min <= n <= length aft)%nat
              /\ forallb p (firstn n aft) = true
              /\ k (mkMState (rev (firstn n aft) ++ bef) (skipn n aft) cs)
                 = Some x.
Proof.
  induction aft as [|c aft IH]; intros min max bef cs H.
  - exists 0%nat. simpl in *.
    destruct max as [[|m]|], min; try discriminate; auto with arith.
  - assert (Hstop : match min with
                    | O => k (mkMState bef (c :: aft) cs)
                    | S _ => None
                    end = Some x ->
                    exists n, (min <= n <= length (c :: aft))%nat
                      /\ forallb p (firstn n (c :: aft)) = true
                      /\ k (mkMState (rev (firstn n (c :: aft)) ++ bef)
                              (skipn n (c :: aft)) cs) = Some x).
    { intros Hs. destruct min; [|discriminate].
      exists 0%nat. simpl. auto with arith. }
    cbn [repeatGreedy] in H.
    assert (Hrec : forall max',
               p c = true ->
               repeatGreedy p (pred min) max' (c :: bef) aft cs k = Some x ->
               exists n, (min <= n <= length (c :: aft))%nat
                 /\ forallb p (firstn n (c :: aft)) = true
                 /\ k (mkMState (rev (firstn n (c :: aft)) ++ bef)
                         (skipn n (c :: aft)) cs) = Some x).
    { intros max' Hp Hr. apply IH in Hr as (n & Hn & Hall & Hk).
      exists (S n). cbn [firstn skipn forallb rev length]. rewrite Hp, Hall.
      rewrite <- app_assoc. simpl. repeat split; auto; lia. }
    destruct max as [[|m]|]; auto.
    + destruct (p c) eqn:Hp; auto.
      destruct (repeatGreedy p (pred min) (option_map pred (Some (S m)))
                  (c :: bef) aft cs k) eqn:Hr; simpl in H; auto.
      inversion H; subst. eauto.
    + destruct (p c) eqn:Hp; auto.
      destruct (repeatGreedy p (pred min) (option_map pred None)
                  (c :: bef) aft cs k) eqn:Hr; simpl in H; auto.
      inversion H; subst. eauto.
Qed.

(** [^code[_\s]+(.+)$] matches only messages that start as
    [^code[_\s]] says, and its group is a non-empty end of the message. *)
Lemma re_code_inv s m :
  exec re_code s = Some m ->
  test re_code_prefix s = true
  /\ exists pre query,
       s = pre ++ query /\ query <> []
       /\ capture 1 (m_caps m) = Some query.
Proof.
  unfold re_code, re_code_prefix. cbn [seq fold_right].
  rewrite exec_anchored by reflexivity. rewrite test_bol.
  unfold matchAt, startsWith, code_body, plus.
  cbn [seq fold_right matchRe after before caps].
  destruct s as [|c1 [|c2 [|c3 [|c4 s]]]];
    repeat match goal with
           | |- context [if ?b then _ else _] => destruct b; try discriminate
           end; try discriminate.
  intros H. apply repeatGreedy_inv in H as (n & Hn & Hall & H).
  cbn [before after caps] in H.
  apply repeatGreedy_inv in H as (n' & Hn' & Hall' & H).
  cbn [before after caps] in H.
  destruct (skipn n' (skipn n s)) eqn:Hend; [|discriminate].
  inversion H; subst m; clear H. cbn [m_caps capture Nat.eqb].
  split.
  - destruct s as [|c5 s]; [simpl in Hn; lia|].
    destruct n; [lia|]. simpl in Hall.
    apply andb_true_iff in Hall as [-> _]. reflexivity.
  - exists ([c1; c2; c3; c4] ++ firstn n s), (skipn n s).
    rewrite <- app_assoc, firstn_skipn. split; [reflexivity|]. split.
    + intros E. rewrite E in Hn'. simpl in Hn'. lia.
    + simpl. rewrite Nat.sub_0_r, firstn_all. reflexivity.
Qed.

(** ** Global replacement does not run out of fuel *)

(** A match ends at or after the position where it started. *)
Lemma matchRe_advances A (r : regex) :
  forall st (k : MState -> option A) x,
    matchRe r st k = Some x ->
    exists st', k st' = Some x /\ (length (after st') <= length (after st))%nat.
Proof.
  induction r; intros st k x H; cbn [matchRe] in H.
  - eauto.
  - destruct (after st) as [|c rest] eqn:E; [discriminate|].
    destruct (p c); [|discriminate].
    eexists. split; [exact H|]. cbn. auto.
  - apply repeatGreedy_inv in H as (n & _ & _ & H).
    eexists. split; [exact H|]. cbn. rewrite length_skipn. lia.
  - destruct (before st); [eauto | discriminate].
  - destruct (after st) eqn:E; [|discriminate]. exists st. rewrite E. auto.
  - destruct (xorb _ _); [eauto | discriminate].
  - apply IHr1 in H as (st1 & H & Hlen1).
    apply IHr2 in H as (st2 & H & Hlen2).
    exists st2. split; [assumption | lia].
  - destruct (matchRe r1 st k) eqn:E1; cbn [orTry] in H.
    + inversion H; subst. apply IHr1 in E1. assumption.
    + apply IHr2 in H. assumption.
  - apply IHr in H as (st' & H & Hlen).
    eexists. split; [exact H|]. cbn. assumption.
Qed.

Lemma matchAt_rest r bef s m :
  matchAt r bef s = Some m ->
  (length (m_rest m) <= length s)%nat
  /\ (m_text m <> [] -> (length (m_rest m) < length s)%nat).
Proof.
  unfold matchAt. intros H.
  apply matchRe_advances in H as (st' & H & Hlen).
  injection H as <-. cbn [m_rest m_text after] in *.
  split; [assumption|]. intros Hne.
  destruct (length s - length (after st'))%nat eqn:Hd;
    [cbn in Hne; congruence | lia].
Qed.

Lemma searchFrom_rest r aft :
  forall bef m,
    searchFrom r bef aft = Some m ->
    (length (m_rest m) <= length aft)%nat
    /\ (m_text m <> [] -> (length (m_rest m) < length aft)%nat).
Proof.
  induction aft as [|c aft IH]; intros bef m H; cbn [searchFrom] in H.
  - destruct (matchAt r bef []) as [m'|] eqn:E; [|discriminate].
    injection H as <-. apply matchAt_rest in E. assumption.
  - destruct (matchAt r bef (c :: aft)) as [m'|] eqn:E.
    + injection H as <-. apply matchAt_rest in E. assumption.
    + apply IH in H as [H1 H2]. cbn [length]. split; [lia|].
      intros Hne. specialize (H2 Hne). lia.
Qed.

Lemma replaceFrom_fuel r by_ fuel :
  forall fuel' bef aft,
    (length aft < fuel)%nat -> (length aft < fuel')%nat ->
    replaceFrom fuel r by_ bef aft = replaceFrom fuel' r by_ bef aft.
Proof.
  induction fuel as [|fuel IH]; intros fuel' bef aft H H'; [lia|].
  destruct fuel' as [|fuel']; [lia|]. cbn [replaceFrom].
  destruct (searchFrom r bef aft) as [m|] eqn:E; [|reflexivity].
  apply searchFrom_rest in E as [Hle Hlt].
  destruct (m_text m) as [|t text].
  - destruct (m_rest m) as [|c rest]; [reflexivity|].
    cbn [length] in Hle. do 3 f_equal. apply IH; lia.
  - specialize (Hlt ltac:(discriminate)). do 2 f_equal. apply IH; lia.
Qed.

(** More fuel than [replaceAll] gives changes nothing. *)
Lemma replaceAll_fuel r by_ s fuel :
  (length s < fuel)%nat -> replaceFrom fuel r by_ [] s = replaceAll r by_ s.
Proof. intros H. apply replaceFrom_fuel; [assumption | auto]. Qed.

(** ** Trimming and splitting *)

Lemma trimStart_head s :
  trimStart s = []
  \/ exists c s', trimStart s = c :: s' /\ isWhiteSpace c = false.
Proof.
  induction s as [|c s IH]; simpl; auto.
  destruct (isWhiteSpace c) eqn:E; eauto.
Qed.

(** A trimmed string is empty or ends in a unit that is not white space. *)
Lemma trim_last raw :
  trim raw = []
  \/ exists s c, trim raw = s ++ [c] /\ isWhiteSpace c = false.
Proof.
  unfold trim, trimEnd.
  destruct (trimStart_head (rev (trimStart raw))) as [-> | (c & s & -> & Hc)].
  - auto.
  - right. exists (rev s), c. simpl. auto.
Qed.

Lemma trimStart_keeps_last c s :
  isWhiteSpace c = false -> exists t, trimStart (s ++ [c]) = t ++ [c].
Proof.
  intros Hc. induction s as [|a s IH]; simpl.
  - rewrite Hc. exists []. reflexivity.
  - destruct (isWhiteSpace a); auto. exists (a :: s). reflexivity.
Qed.

Lemma trim_keeps_last c s :
  isWhiteSpace c = false -> trim (s ++ [c]) <> [].
Proof.
  intros Hc. unfold trim, trimEnd.
  destruct (@trimStart_keeps_last c s Hc) as [t ->].
  rewrite rev_app_distr. simpl. rewrite Hc. simpl.
  intros E. apply app_eq_nil in E as [_ E]. discriminate.
Qed.

(** A non-empty end of a trimmed, non-empty string does not trim to the
    empty string. *)
Lemma trim_suffix raw pre q :
  trim raw = pre ++ q -> q <> [] -> trim q <> [].
Proof.
  intros E Hq.
  destruct (exists_last Hq) as (q' & c & ->).
  destruct (trim_last raw) as [E0 | (s & c' & E1 & Hc)].
  - rewrite E0 in E. symmetry in E. apply app_eq_nil in E as [_ E].
    apply app_eq_nil in E as [_ E]. discriminate.
  - rewrite E1, app_assoc in E. apply app_inj_tail in E as [_ ->].
    apply trim_keeps_last. assumption.
Qed.

Lemma splitSpace_hd s : hd [] (splitSpace s) = firstSpaceToken s.
Proof.
  unfold firstSpaceToken. induction s as [|c s IH]; simpl; auto.
  destruct (c =? 32); simpl; auto.
  destruct (splitSpace s); simpl in *; rewrite <- IH; reflexivity.
Qed.

(** ** The effect monad *)

Lemma replies_app a b : replies (a ++ b) = replies a ++ replies b.
Proof. apply flat_map_app. Qed.

Lemma consoleLines_app a b :
  consoleLines (a ++ b) = consoleLines a ++ consoleLines b.
Proof. apply flat_map_app. Qed.

Lemma translateCalls_app a b :
  translateCalls (a ++ b) = translateCalls a ++ translateCalls b.
Proof. apply flat_map_app. Qed.

Lemma str_eqb_eq a : forall b, str_eqb a b = true <-> a = b.
Proof.
  induction a as [|x a IH]; intros [|y b]; simpl; split;
    try discriminate; try reflexivity.
  - intros H. apply andb_true_iff in H as [Hx Hs].
    apply N.eqb_eq in Hx. apply IH in Hs. congruence.
  - intros H. inversion H; subst. apply andb_true_iff. split.
    + apply N.eqb_refl.
    + apply IH. reflexivity.
Qed.

Lemma str_eqb_neq a b : str_eqb a b = false <-> a <> b.
Proof.
  rewrite <- str_eqb_eq. destruct (str_eqb a b); split; congruence.
Qed.

Section Properties.

Context {imports : Imports}.

(** *** [smartTranslate] *)

Lemma smartTranslate_run text toLang mem :
  smartTranslate text toLang mem
  = mkRun (Normal (fst (smartOutcome text toLang))) mem
      (snd (smartOutcome text toLang)).
Proof.
  unfold smartTranslate, smartOutcome, tryCatch, bind, callTranslate, log,
    emit, ret.
  remember (js "ru") as ru.
  destruct (translate text None toLang) as [res | e]; cbn; auto.
  destruct (shouldForceRu text res); cbn; auto.
  destruct (translate text (Some ru) toLang); cbn; auto.
Qed.

Lemma smartOutcome_replies text toLang :
  replies (snd (smartOutcome text toLang)) = [].
Proof.
  unfold smartOutcome.
  destruct (translate text None toLang) as [res | e]; auto.
  destruct (shouldForceRu text res); auto.
  destruct (translate text (Some (js "ru")) toLang); auto.
Qed.

(** *** The handlers *)

Ltac run_monad :=
  repeat (progress
            (cbv beta iota zeta delta
                 [bind writeChatCfg pressBindKeyLater log emit ret
                  getLastForeignMsg setLastForeignMsg result memory events];
             rewrite ?smartTranslate_run));
  cbn [app].

Lemma handleTl_false isTeam message mem :
  test re_tl message = false ->
  handleTl isTeam message mem = mkRun (Normal false) mem [].
Proof. intros H. unfold handleTl. rewrite H. reflexivity. Qed.

Lemma handleTl_true isTeam message mem :
  test re_tl message = true ->
  exists evs,
    handleTl isTeam message mem = mkRun (Normal true) mem evs
    /\ length (replies evs) = 1%nat.
Proof.
  intros H. unfold handleTl. rewrite H. cbn [negb].
  destruct mem as [lastForeignMsg|]; run_monad.
  - eexists. split; [reflexivity|].
    rewrite replies_app, smartOutcome_replies. reflexivity.
  - eexists. split; reflexivity.
Qed.

Lemma handleCodeLang_none isTeam message mem :
  exec re_code message = None ->
  handleCodeLang isTeam message mem = mkRun (Normal false) mem [].
Proof. intros H. unfold handleCodeLang. rewrite H. reflexivity. Qed.

Lemma handleCodeLang_some isTeam message mem m :
  exec re_code message = Some m ->
  let query := trim (orElse (capture 1 (m_caps m)) []) in
  handleCodeLang isTeam message mem
  = match query with
    | [] => mkRun (Normal true) mem []
    | _ :: _ =>
        mkRun (Normal true) mem
          [EWriteChatCfg (codeReply query) isTeam;
           EConsole (LogWroteCfg isTeam (codeReply query));
           ESetTimeoutPressBindKey 150;
           EConsole (match bestLangMatch query with
                     | Some found =>
                         LogCodeFound (codeReply query) (lm_score found)
                     | None => LogWarn (codeReply query)
                     end)]
    end.
Proof.
  intros H query. unfold handleCodeLang. rewrite H. fold query.
  destruct query as [|c q] eqn:E; [reflexivity|].
  unfold codeReply. destruct (bestLangMatch (c :: q)); reflexivity.
Qed.

Lemma handleTm_false isTeam sender message mem :
  test re_tm message = false ->
  handleTm isTeam sender message mem = mkRun (Normal false) mem [].
Proof. intros H. unfold handleTm. rewrite H. reflexivity. Qed.

Lemma handleTm_true isTeam sender message mem :
  test re_tm message = true ->
  handleTm isTeam sender message mem
  = match tmText message with
    | [] => mkRun (Normal true) mem []
    | _ :: _ =>
        let res := fst (smartOutcome (tmText message) (tmLang message)) in
        let output :=
          saidReply sender (tr_text res) (originalLangReadable res) in
        mkRun (Normal true) mem
          (snd (smartOutcome (tmText message) (tmLang message))
           ++ [EWriteChatCfg output isTeam;
               EConsole (LogWroteCfg isTeam output);
               ESetTimeoutPressBindKey 150;
               EConsole (LogTmSent (tmLang message));
               EConsole (LogKV (js "from") (originalLangReadable res));
               EConsole (LogKV (js "text") (tr_text res))])
    end.
Proof.
  intros H. unfold handleTm. rewrite H. cbn [negb].
  unfold tmLang, tmText. rewrite splitSpace_hd.
  destruct (trim (join (js " ") (tl (splitSpace message)))) eqn:E;
    [reflexivity|].
  run_monad. reflexivity.
Qed.

(** *** The console-only translation *)

Lemma autoTranslateToConsole_run team sender message mem :
  autoTranslateToConsole team sender message mem
  = if isEmpty message || isCommand message || onlyDotsOrSpace message
    then mkRun (Normal tt) mem []
    else
      let res := fst (smartOutcome message (js "en")) in
      mkRun (Normal tt) mem
        (snd (smartOutcome message (js "en"))
         ++ (if str_eqb (sourceIso res) (js "en") then []
             else [EConsole
                     (LogAutoTranslate team sender
                        (langName (sourceIso res)) (js "EN")
                        (tr_text res))])).
Proof.
  unfold autoTranslateToConsole. cbn [AUTO_TRANSLATE negb].
  destruct message as [|c message]; [reflexivity|].
  cbn [isEmpty orb]. rewrite test_re_known, test_re_dots.
  cbn [isEmpty negb andb]. unfold isCommand, onlyDotsOrSpace.
  rewrite (orb_comm (test re_tl _) (test re_tm _)).
  destruct (test re_tm (c :: message) || test re_tl (c :: message)
            || test re_code_prefix (c :: message)); [reflexivity|].
  cbn [orb]. destruct (forallb dotOrSpace (c :: message)); [reflexivity|].
  run_monad.
  change (toLowerCase AUTO_TRANSLATE_TARGET) with (js "en").
  change (toUpperCase AUTO_TRANSLATE_TARGET) with (js "EN").
  change AUTO_TRANSLATE_TARGET with (js "en").
  destruct (str_eqb _ (js "en")); reflexivity.
Qed.

(** *** [handleLine] *)

Lemma handleLine_none line mem :
  exec re_line line = None ->
  handleLine line mem = mkRun (Normal tt) mem [].
Proof. intros H. unfold handleLine. rewrite H. reflexivity. Qed.

Lemma handleLine_run line m mem :
  exec re_line line = Some m ->
  let message := lineMessage m in
  let sender := lineSender m in
  let mem' := tracked m mem in
  handleLine line mem
  = mkRun (Normal tt) mem'
      (EConsole (LogChat (lineTeam m) sender message)
       :: (if test re_tl message
           then events (handleTl (lineIsTeam m) message mem')
           else if isSome (exec re_code message)
           then events (handleCodeLang (lineIsTeam m) message mem')
           else if test re_tm message
           then events (handleTm (lineIsTeam m) sender message mem')
           else events (autoTranslateToConsole (lineTeam m) sender message
                          mem'))).
Proof.
  intros H message sender mem'. unfold handleLine. rewrite H.
  fold message sender. fold (lineIsTeam m).
  assert (Hmem : forall c : M unit,
             (forall x, result (c x) = Normal tt /\ memory (c x) = x) ->
             ((log (LogChat (lineTeam m) sender message) ;;;
               (if negb (test re_command message)
                   && negb (test re_dots message)
                then setLastForeignMsg
                       (mkLastMsg sender message (lineTeam m))
                else ret tt) ;;; c) mem
             = mkRun (Normal tt) mem'
                 (EConsole (LogChat (lineTeam m) sender message)
                  :: events (c mem')))%M).
  { intros c Hc. unfold mem', tracked. fold message sender.
    destruct (negb (test re_command message)
              && negb (test re_dots message)); run_monad;
      match goal with
      | |- context [c ?x] =>
          destruct (Hc x) as [Hr Hm]; destruct (c x) as [r mm ee];
          cbn in Hr, Hm; subst r mm; reflexivity
      end. }
  rewrite Hmem.
  - f_equal. f_equal. unfold bind.
    destruct (test re_tl message) eqn:Etl.
    + destruct (@handleTl_true (lineIsTeam m) message mem' Etl)
        as (evs & -> & _).
      cbn. apply app_nil_r.
    + rewrite handleTl_false by assumption. cbn [result memory events app].
      destruct (exec re_code message) as [mc|] eqn:Ecode.
      * rewrite handleCodeLang_some with (m := mc) by assumption. cbn [isSome].
        destruct (trim _); cbn; rewrite ?app_nil_r; reflexivity.
      * rewrite handleCodeLang_none by assumption.
        cbn [isSome result memory events app].
        destruct (test re_tm message) eqn:Etm.
        -- rewrite handleTm_true by assumption.
           destruct (tmText message); cbn; rewrite ?app_nil_r; reflexivity.
        -- rewrite handleTm_false by assumption. reflexivity.
  - intros x. unfold bind.
    destruct (test re_tl message) eqn:Etl.
    + destruct (@handleTl_true (lineIsTeam m) message x Etl)
        as (evs & -> & _). cbn. auto.
    + rewrite handleTl_false by assumption. cbn [result memory events app].
      destruct (exec re_code message) as [mc|] eqn:Ecode.
      * rewrite handleCodeLang_some with (m := mc) by assumption.
        destruct (trim _); cbn; auto.
      * rewrite handleCodeLang_none by assumption.
        cbn [result memory events app].
        destruct (test re_tm message) eqn:Etm.
        -- rewrite handleTm_true by assumption.
           destruct (tmText message); cbn; auto.
        -- rewrite handleTm_false by assumption.
           cbn [result memory events app].
           rewrite autoTranslateToConsole_run.
           destruct (_ || _); cbn; auto.
Qed.

(** *** The memory of the last normal message *)

(** C1.  For a chat line that is accepted (it matches the chat-line
    pattern and its trimmed message is not empty), [lastForeignMsg]
    after [handleLine] is [{sender, message, channel}] of the line when
    the message is plain (it matches none of [^tm_[a-z_]{2,5}\b],
    [^_tl\b], [^code[_\s]]) and is not made of periods and white space
    only, and is what it was before otherwise; in particular a message
    that matches a command pattern leaves it unchanged. *)
Theorem lastForeignMsg_tracks_plain_messages line m mem :
  exec re_line line = Some m ->
  lineMessage m <> [] ->
  memory (handleLine line mem)
  = (if isPlain (lineMessage m) && negb (onlyDotsOrSpace (lineMessage m))
     then Some (mkLastMsg (lineSender m) (lineMessage m) (lineTeam m))
     else mem)
  /\ (isCommand (lineMessage m) = true ->
      memory (handleLine line mem) = mem).
Proof.
  intros H Hne. rewrite handleLine_run with (m := m) by assumption.
  cbn [memory]. unfold tracked, isPlain, isCommand, onlyDotsOrSpace.
  rewrite test_re_command, test_re_dots.
  destruct (lineMessage m) as [|c s] eqn:E; [congruence|].
  cbn [negb andb]. split; [reflexivity|].
  intros ->. reflexivity.
Qed.

(** A line whose message trims to the empty string is tracked like a
    normal message. *)
Lemma empty_messages_are_tracked line m mem :
  exec re_line line = Some m ->
  lineMessage m = [] ->
  memory (handleLine line mem)
  = Some (mkLastMsg (lineSender m) [] (lineTeam m)).
Proof.
  intros H E. rewrite handleLine_run with (m := m) by assumption.
  cbn [memory]. unfold tracked. rewrite E. reflexivity.
Qed.

(** C7.  The line [[CT] Bob:  ] (two spaces after the colon) is matched
    by the chat-line pattern, its message trims to the empty string, and
    [handleLine] stores that empty message in [lastForeignMsg]. *)
Theorem empty_message_overwrites_lastForeignMsg mem :
  exists m,
    exec re_line (js "[CT] Bob:  ") = Some m
    /\ lineMessage m = []
    /\ memory (handleLine (js "[CT] Bob:  ") mem)
       = Some (mkLastMsg (js "Bob") [] (js "CT")).
Proof.
  eexists. split; [vm_compute; reflexivity|].
  split; vm_compute; reflexivity.
Qed.

(** C8 (amended).  The bare message [tm_] matches no command pattern: it
    is plain and overwrites [lastForeignMsg].  A message that does match
    a command pattern, well-formed or not, leaves it unchanged. *)
Theorem bare_tm_is_a_plain_message line m mem :
  exec re_line line = Some m ->
  (lineMessage m = js "tm_" ->
   isPlain (lineMessage m) = true
   /\ memory (handleLine line mem)
      = Some (mkLastMsg (lineSender m) (js "tm_") (lineTeam m)))
  /\ (isCommand (lineMessage m) = true ->
      memory (handleLine line mem) = mem).
Proof.
  intros H. rewrite handleLine_run with (m := m) by assumption.
  cbn [memory]. unfold tracked. split.
  - intros ->. split; vm_compute; reflexivity.
  - unfold isCommand. rewrite test_re_command. intros ->. reflexivity.
Qed.

(** *** Replies *)

Lemma lineMessage_code_query m mc :
  exec re_code (lineMessage m) = Some mc ->
  trim (orElse (capture 1 (m_caps mc)) []) <> [].
Proof.
  intros H. apply re_code_inv in H as (_ & pre & q & E & Hq & ->).
  destruct q as [|c q]; [congruence|]. cbn [orElse].
  unfold lineMessage in E. apply trim_suffix in E; [assumption|discriminate].
Qed.

Lemma plain_wants_no_reply message :
  isPlain message = true -> wantsReply message = false.
Proof.
  unfold isPlain, isCommand, wantsReply. intros H.
  apply negb_true_iff in H.
  apply orb_false_iff in H as [H Hcode].
  apply orb_false_iff in H as [Htm Htl].
  rewrite Htm, Htl. cbn [orb andb].
  destruct (exec re_code message) as [mc|] eqn:E; [|reflexivity].
  apply re_code_inv in E as [E _]. congruence.
Qed.

Lemma handleLine_replies line m mem :
  exec re_line line = Some m ->
  length (replies (events (handleLine line mem)))
  = (if wantsReply (lineMessage m) then 1 else 0)%nat.
Proof.
  intros H. rewrite handleLine_run with (m := m) by assumption.
  cbn [events]. change (replies (?e :: ?l)) with (replies l).
  unfold wantsReply.
  destruct (test re_tl (lineMessage m)) eqn:Etl.
  { destruct (@handleTl_true (lineIsTeam m) (lineMessage m)
                (tracked m mem) Etl) as (evs & -> & Hlen).
    exact Hlen. }
  destruct (exec re_code (lineMessage m)) as [mc|] eqn:Ecode.
  { rewrite handleCodeLang_some with (m := mc) by assumption.
    pose proof (lineMessage_code_query m mc Ecode) as Hq.
    destruct (trim (orElse (capture 1 (m_caps mc)) []));
      [congruence | reflexivity]. }
  cbn [isSome orb].
  destruct (test re_tm (lineMessage m)) eqn:Etm.
  { rewrite handleTm_true by assumption.
    destruct (tmText (lineMessage m)); [reflexivity|].
    cbn [events isEmpty negb andb].
    rewrite replies_app, smartOutcome_replies. reflexivity. }
  rewrite autoTranslateToConsole_run.
  destruct (_ || _); cbn [events andb]; [reflexivity|].
  rewrite replies_app, smartOutcome_replies.
  destruct (str_eqb _ _); reflexivity.
Qed.

Lemma handleTl_result isTeam message mem :
  result (handleTl isTeam message mem) = Normal (test re_tl message).
Proof.
  destruct (test re_tl message) eqn:E.
  - destruct (@handleTl_true isTeam message mem E) as (evs & -> & _).
    reflexivity.
  - rewrite handleTl_false by assumption. reflexivity.
Qed.

Lemma handleCodeLang_result isTeam message mem :
  result (handleCodeLang isTeam message mem)
  = Normal (isSome (exec re_code message)).
Proof.
  destruct (exec re_code message) as [mc|] eqn:E.
  - rewrite handleCodeLang_some with (m := mc) by assumption.
    destruct (trim _); reflexivity.
  - rewrite handleCodeLang_none by assumption. reflexivity.
Qed.

Lemma handleTm_result isTeam sender message mem :
  result (handleTm isTeam sender message mem) = Normal (test re_tm message).
Proof.
  destruct (test re_tm message) eqn:E.
  - rewrite handleTm_true by assumption.
    destruct (tmText message); reflexivity.
  - rewrite handleTm_false by assumption. reflexivity.
Qed.

(** C2 (amended).  For every chat line that matches the chat-line
    pattern: at most one of [handleTl], [handleCodeLang] and [handleTm]
    accepts the message; the line gets exactly one chat reply when it is
    a [_tl] command, a [code] command with a query or a [tm_] command
    with a text, and none otherwise (a command with nothing to act on
    is accepted without a reply); a plain message never gets one. *)
Theorem at_most_one_reply_per_line line m mem :
  exec re_line line = Some m ->
  let message := lineMessage m in
  let evs := events (handleLine line mem) in
  length (replies evs) = (if wantsReply message then 1 else 0)%nat
  /\ (isPlain message = true -> replies evs = [])
  /\ (forall mem1 mem2 mem3,
        let byTl := result (handleTl (lineIsTeam m) message mem1) in
        let byCode :=
          result (handleCodeLang (lineIsTeam m) message mem2) in
        let byTm :=
          result (handleTm (lineIsTeam m) (lineSender m) message mem3) in
        (byTl = Normal true ->
         byCode = Normal false /\ byTm = Normal false)
        /\ (byCode = Normal true ->
            byTl = Normal false /\ byTm = Normal false)
        /\ (byTm = Normal true ->
            byTl = Normal false /\ byCode = Normal false)).
Proof.
  intros H message evs.
  pose proof (handleLine_replies line m mem H) as Hlen. fold message evs in Hlen.
  split; [exact Hlen|]. split.
  - intros Hp. rewrite plain_wants_no_reply in Hlen by assumption.
    destruct (replies evs); [reflexivity | discriminate].
  - intros mem1 mem2 mem3.
    rewrite handleTl_result, handleCodeLang_result, handleTm_result.
    destruct (commands_exclusive message) as [Htl Htm].
    assert (Hcode : isSome (exec re_code message) = true ->
                    test re_code_prefix message = true).
    { destruct (exec re_code message) as [mc|] eqn:E; [|discriminate].
      intros _. apply (re_code_inv _ _ E). }
    cbv zeta.
    destruct (test re_tl message), (test re_tm message),
      (isSome (exec re_code message)),
      (test re_code_prefix message);
      repeat split; intros; try reflexivity; try discriminate;
      try (specialize (Htl eq_refl); destruct Htl; discriminate);
      try (specialize (Htm eq_refl); discriminate);
      try (specialize (Hcode eq_refl); discriminate).
Qed.

(** C9 (amended).  A [code] message with nothing after its separators
    (it matches [^code[_\s]] but not [^code[_\s]+(.+)$], as [code_]
    does) is treated as a command and is a no-op: [lastForeignMsg] is
    unchanged, nothing is translated and nothing is sent to chat.  A
    query that is not empty but normalizes to the empty string gets the
    "no close language match" reply. *)
Theorem code_without_query_is_a_noop line m mem :
  exec re_line line = Some m ->
  let message := lineMessage m in
  (test re_code_prefix message = true ->
   exec re_code message = None ->
   handleLine line mem
   = mkRun (Normal tt) mem
       [EConsole (LogChat (lineTeam m) (lineSender m) message)])
  /\ (forall mc,
        exec re_code message = Some mc ->
        let query := trim (orElse (capture 1 (m_caps mc)) []) in
        normalizeQueryLoose query = [] ->
        replies (events (handleLine line mem))
        = [(noMatchReply query, lineIsTeam m)]).
Proof.
  intros H message. rewrite handleLine_run with (m := m) by assumption.
  fold message. destruct (commands_exclusive message) as [Htl Htm].
  split.
  - intros Hp Hc.
    assert (Etl : test re_tl message = false).
    { destruct (test re_tl message); [|reflexivity].
      destruct (Htl eq_refl). congruence. }
    assert (Etm : test re_tm message = false).
    { destruct (test re_tm message); [|reflexivity].
      specialize (Htm eq_refl). congruence. }
    rewrite Etl, Hc, Etm. cbn [isSome].
    rewrite autoTranslateToConsole_run.
    unfold tracked, isCommand. fold message.
    rewrite test_re_command, Hp, Etl, Etm. cbn [orb negb andb].
    rewrite orb_true_r. reflexivity.
  - intros mc Hc query Hq.
    pose proof (re_code_inv _ _ Hc) as [Hp _].
    assert (Etl : test re_tl message = false).
    { destruct (test re_tl message); [|reflexivity].
      destruct (Htl eq_refl). congruence. }
    rewrite Etl, Hc. cbn [isSome events].
    rewrite handleCodeLang_some with (m := mc) by assumption.
    fold query. pose proof (lineMessage_code_query m mc Hc) as Hne.
    fold message query in Hne.
    destruct query as [|c q] eqn:E; [congruence|].
    unfold codeReply, bestLangMatch. rewrite Hq. reflexivity.
Qed.

(** *** The target language of [tm_] *)

Lemma smartOutcome_calls text toLang call :
  In call (translateCalls (snd (smartOutcome text toLang))) ->
  fst (fst call) = text /\ snd call = toLang.
Proof.
  unfold smartOutcome.
  destruct (translate text None toLang) as [res | e].
  - destruct (shouldForceRu text res).
    + destruct (translate text (Some (js "ru")) toLang);
        cbn; intros [<- | [<- | []]]; auto.
    + cbn; intros [<- | []]; auto.
  - cbn; intros [<- | []]; auto.
Qed.

Lemma smartOutcome_first_call text toLang :
  exists rest,
    translateCalls (snd (smartOutcome text toLang))
    = (text, None, toLang) :: rest.
Proof.
  unfold smartOutcome.
  destruct (translate text None toLang) as [res | e].
  - destruct (shouldForceRu text res).
    + destruct (translate text (Some (js "ru")) toLang);
        cbn; eauto.
    + cbn; eauto.
  - cbn; eauto.
Qed.

(** C10 (amended).  For every chat line whose message matches
    [^tm_[a-z_]{2,5}\b], each call of the translation API made for the
    line translates the text after the first U+0020 into the language
    named by the first token that U+0020 delimits (not any white space),
    without its first three units and in lower case; there is such a
    call when that text is not empty, and none when it is. *)
Theorem tm_target_is_the_first_space_token line m mem :
  exec re_line line = Some m ->
  let message := lineMessage m in
  let calls := translateCalls (events (handleLine line mem)) in
  test re_tm message = true ->
  (forall text from to,
     In (text, from, to) calls ->
     text = tmText message /\ to = tmLang message)
  /\ (tmText message <> [] ->
      exists rest, calls = (tmText message, None, tmLang message) :: rest)
  /\ (tmText message = [] -> calls = []).
Proof.
  intros H message calls Htm. subst calls.
  rewrite handleLine_run with (m := m) by assumption. fold message.
  destruct (commands_exclusive message) as [Htl Hcode].
  specialize (Hcode Htm).
  assert (Etl : test re_tl message = false).
  { destruct (test re_tl message); [|reflexivity].
    destruct (Htl eq_refl). congruence. }
  assert (Ec : exec re_code message = None).
  { destruct (exec re_code message) as [mc|] eqn:E; [|reflexivity].
    apply re_code_inv in E as [E _]. congruence. }
  rewrite Etl, Ec, Htm. cbn [isSome events].
  change (translateCalls (?e :: ?l)) with (translateCalls l).
  rewrite handleTm_true by assumption.
  destruct (tmText message) as [|c text] eqn:E.
  - cbn. repeat split; try contradiction; congruence.
  - cbn [events]. rewrite translateCalls_app. cbn [translateCalls flat_map].
    rewrite app_nil_r. split; [|split; [|discriminate]].
    + intros t f to Hin. apply smartOutcome_calls in Hin. cbn in Hin.
      destruct Hin; split; congruence.
    + intros _. apply smartOutcome_first_call.
Qed.

(** *** The translation resolver *)

(** C3.  [smartTranslate] always completes normally.  When the first
    call of the translation API fails, it returns the input text
    unchanged with the source code [unknown] and no forced source, and
    that failed call is the only call it has made. *)
Theorem smartTranslate_degrades_on_failure text toLang mem :
  completes (smartTranslate text toLang)
  /\ (forall errMessage,
        translate text None toLang = Rejected errMessage ->
        result (smartTranslate text toLang mem)
        = Normal (mkTranslation text (Some (js "unknown")) None)
        /\ translateCalls (events (smartTranslate text toLang mem))
           = [(text, None, toLang)]
        /\ memory (smartTranslate text toLang mem) = mem).
Proof.
  split.
  - intros mem'. rewrite smartTranslate_run. eexists. reflexivity.
  - rewrite smartTranslate_run. cbn [result memory events].
    intros e He. unfold smartOutcome. rewrite He. repeat split.
Qed.

Lemma shouldForceRu_spec text res :
  shouldForceRu text res = true
  <-> guessOf res <> js "ru"
      /\ (exists c, In c text /\ 0x0400 <= c <= 0x04FF)
      /\ PREFER_RU_FOR_CYRILLIC = true.
Proof.
  unfold shouldForceRu, CYRILLIC_REGEX. rewrite test_Char.
  cbn [PREFER_RU_FOR_CYRILLIC andb].
  rewrite andb_true_iff, negb_true_iff, str_eqb_neq, existsb_exists.
  split.
  - intros [(c & Hin & Hc) Hg]. split; [assumption|]. split; [|reflexivity].
    exists c. split; [assumption|]. unfold in_range in Hc.
    apply andb_true_iff in Hc as [H1 H2].
    apply N.leb_le in H1, H2. lia.
  - intros (Hg & (c & Hin & Hc) & _). split; [|assumption].
    exists c. split; [assumption|]. unfold in_range.
    apply andb_true_iff. split; apply N.leb_le; lia.
Qed.

(** [guess] is [ru] exactly when the first response carries a code
    that is [ru] in lower case; a response without a code, or with an
    empty one, has the guess [""]. *)
Lemma guessOf_ru res :
  guessOf res = js "ru"
  <-> exists iso, r_iso res = Some iso /\ toLowerCase iso = js "ru".
Proof.
  unfold guessOf. destruct (r_iso res) as [[|c iso]|]; cbn [orElse].
  - split; [discriminate|]. intros (iso & E & H). injection E as <-.
    discriminate H.
  - split; [eauto|]. intros (iso' & E & H). injection E as <-. exact H.
  - split; [discriminate|]. intros (iso & E & _). discriminate E.
Qed.

Lemma spellings_of_ru iso :
  In iso [js "ru"; js "RU"; js "Ru"; js "rU"] -> toLowerCase iso = js "ru".
Proof.
  intros H. repeat (destruct H as [<- | H]; [reflexivity|]). destruct H.
Qed.

(** C4 (amended).  After a first call that succeeded, [smartTranslate]
    calls the translation API a second time, with the source forced to
    [ru], exactly when the code of the first response, if it has one,
    is not [ru] in lower case, the text has a unit in U+0400..U+04FF
    and [PREFER_RU_FOR_CYRILLIC] is set; so there is no second call
    when the code is [ru], [RU], [Ru] or [rU].  Without a second call,
    and when the second call fails, the first response is returned as
    it is; when the second call succeeds its response is returned,
    marked as forced from [ru]. *)
Theorem russian_override_for_cyrillic text toLang mem res :
  translate text None toLang = Resolved res ->
  let run := smartTranslate text toLang mem in
  let calls := translateCalls (events run) in
  let first := (text, None, toLang) in
  let second := (text, Some (js "ru"), toLang) in
  (In second calls
   <-> ~ (exists iso, r_iso res = Some iso /\ toLowerCase iso = js "ru")
       /\ (exists c, In c text /\ 0x0400 <= c <= 0x04FF)
       /\ PREFER_RU_FOR_CYRILLIC = true)
  /\ (forall iso,
        r_iso res = Some iso ->
        In iso [js "ru"; js "RU"; js "Ru"; js "rU"] ->
        ~ In second calls)
  /\ (~ In second calls ->
      calls = [first] /\ result run = Normal (unforced res))
  /\ (In second calls ->
      calls = [first; second]
      /\ (forall errMessage,
            translate text (Some (js "ru")) toLang = Rejected errMessage ->
            result run = Normal (unforced res))
      /\ (forall forced,
            translate text (Some (js "ru")) toLang = Resolved forced ->
            result run
            = Normal (mkTranslation (r_text forced) (r_iso forced)
                        (Some (js "ru")))
            /\ sourceIso (mkTranslation (r_text forced) (r_iso forced)
                            (Some (js "ru"))) = js "ru")).
Proof.
  intros H run calls first second. subst run calls.
  rewrite smartTranslate_run. cbn [result events].
  rewrite <- guessOf_ru, <- shouldForceRu_spec.
  assert (Hspell : forall iso,
             r_iso res = Some iso ->
             In iso [js "ru"; js "RU"; js "Ru"; js "rU"] ->
             shouldForceRu text res = false).
  { intros iso E Hin. destruct (shouldForceRu text res) eqn:Ef;
      [|reflexivity].
    apply shouldForceRu_spec in Ef as [Hg _]. exfalso. apply Hg.
    apply guessOf_ru. exists iso. split; [exact E|].
    apply spellings_of_ru. exact Hin. }
  unfold smartOutcome. rewrite H.
  fold first second.
  destruct (shouldForceRu text res).
  - assert (Hin : In second
                    (translateCalls
                       (snd match translate text (Some (js "ru")) toLang with
                            | Resolved forced =>
                                (mkTranslation (r_text forced)
                                   (r_iso forced) (Some (js "ru")),
                                 [ETranslate text None toLang;
                                  ETranslate text (Some (js "ru")) toLang])
                            | Rejected _ =>
                                (unforced res,
                                 [ETranslate text None toLang;
                                  ETranslate text (Some (js "ru")) toLang])
                            end))).
    { destruct (translate text (Some (js "ru")) toLang); cbn; auto. }
    split; [tauto|].
    split; [intros iso E Hiso; discriminate (Hspell iso E Hiso)|].
    split; [tauto|]. intros _.
    destruct (translate text (Some (js "ru")) toLang) as [forced | e];
      cbn [fst snd translateCalls flat_map app];
      (split; [reflexivity|]); split; intros ? E;
      try discriminate E; inversion E; subst; split; reflexivity.
  - cbn [fst snd translateCalls flat_map app In].
    assert (Hne : ~ (first = second \/ False)).
    { intros [E | []]. discriminate E. }
    split; [split; [tauto | discriminate]|].
    split; [intros iso _ _; exact Hne|].
    split; [auto | tauto].
Qed.

(** *** The console-only translation of plain messages *)

(** C6 (amended).  For a plain message given to
    [autoTranslateToConsole]: nothing is ever sent to chat; nothing at
    all is done when the message is empty or made of periods and white
    space only; otherwise the message is resolved towards [en], no
    console line is printed when the source code of the result (forced
    or detected, in lower case) is [en], and when it is not, the
    translation line is printed, once, after the warning that
    [smartTranslate] prints when its first call failed. *)
Theorem console_projection_of_plain_messages team sender message mem :
  isPlain message = true ->
  let run := autoTranslateToConsole team sender message mem in
  replies (events run) = []
  /\ (isEmpty message || onlyDotsOrSpace message = true ->
      events run = [])
  /\ (isEmpty message || onlyDotsOrSpace message = false ->
      exists res,
        result (smartTranslate message (js "en") mem) = Normal res
        /\ (sourceIso res = js "en" -> consoleLines (events run) = [])
        /\ (sourceIso res <> js "en" ->
            consoleLines (events run)
            = match translate message None (js "en") with
              | Rejected errMessage => [LogTranslationFailed errMessage]
              | Resolved _ => []
              end
              ++ [LogAutoTranslate team sender (langName (sourceIso res))
                    (js "EN") (tr_text res)])).
Proof.
  intros Hp run. subst run. rewrite autoTranslateToConsole_run.
  unfold isPlain in Hp. apply negb_true_iff in Hp. rewrite Hp.
  rewrite orb_false_r.
  destruct (isEmpty message || onlyDotsOrSpace message).
  - repeat split; try discriminate.
  - cbn [events]. split; [|split; [discriminate|]].
    + rewrite replies_app, smartOutcome_replies.
      destruct (str_eqb _ _); reflexivity.
    + intros _. rewrite smartTranslate_run. cbn [result].
      eexists. split; [reflexivity|].
      rewrite consoleLines_app.
      assert (Hc : consoleLines (snd (smartOutcome message (js "en")))
                   = match translate message None (js "en") with
                     | Rejected errMessage =>
                         [LogTranslationFailed errMessage]
                     | Resolved _ => []
                     end).
      { unfold smartOutcome.
        destruct (translate message None (js "en")) as [res | e];
          [|reflexivity].
        destruct (shouldForceRu message res); [|reflexivity].
        destruct (translate message (Some (js "ru")) (js "en"));
          reflexivity. }
      split.
      * intros E. apply str_eqb_eq in E. rewrite E, Hc, app_nil_r.
        unfold sourceIso in E.
        unfold smartOutcome in *.
        destruct (translate message None (js "en")) as [res | e];
          [reflexivity|].
        cbn in E. discriminate.
      * intros E. apply str_eqb_neq in E. rewrite E, Hc. reflexivity.
Qed.

(** *** The language resolver *)

Ltac solve_num :=
  unfold num_le, num_lt, num_max, num_geb, num_gtb in *;
  repeat match goal with
         | x : number |- _ => destruct x
         end;
  repeat match goal with
         | H : context [Z.ltb ?a ?b] |- _ => destruct (Z.ltb_spec a b)
         | H : context [Z.leb ?a ?b] |- _ => destruct (Z.leb_spec a b)
         | |- context [Z.ltb ?a ?b] => destruct (Z.ltb_spec a b)
         | |- context [Z.leb ?a ?b] => destruct (Z.leb_spec a b)
         end;
  try discriminate; try reflexivity; try lia.

Lemma num_max_ge a b : num_le a (num_max a b) /\ num_le b (num_max a b).
Proof. split; solve_num. Qed.

Lemma num_le_trans a b c : num_le a b -> num_le b c -> num_le a c.
Proof. intros H1 H2. solve_num. Qed.

Lemma num_not_gt a b : num_gtb a b = false <-> num_le a b.
Proof. split; intros H; solve_num. Qed.

Lemma fold_num_max xs :
  forall a,
    let r := fold_left num_max xs a in
    (r = a \/ In r xs) /\ num_le a r /\ forall x, In x xs -> num_le x r.
Proof.
  induction xs as [|x xs IH]; intros a; cbn [fold_left In].
  - split; [auto|]. split; [solve_num | contradiction].
  - destruct (IH (num_max a x)) as (Hin & Hge & Hall).
    destruct (num_max_ge a x) as [Ha Hx]. split; [|split].
    + destruct Hin as [-> | Hin]; [|auto].
      unfold num_max. destruct (num_gtb x a); auto.
    + eapply num_le_trans; eassumption.
    + intros y [<- | Hy]; [|auto]. eapply num_le_trans; eassumption.
Qed.

(** The score of an entry is the greatest score of its aliases. *)
Lemma aliasScore_max q c :
  aliases c <> [] ->
  In (aliasScore q c) (map (fun a => Num (ratio q a)) (aliases c))
  /\ forall a, In a (aliases c) -> num_le (Num (ratio q a)) (aliasScore q c).
Proof.
  intros Hne. unfold aliasScore, Math_max.
  destruct (fold_num_max (map (fun a => Num (ratio q a)) (aliases c))
              NegInfinity) as (Hin & _ & Hall).
  split.
  - destruct Hin as [E | Hin]; [|assumption].
    destruct (aliases c) as [|a l]; [congruence|].
    specialize (Hall (Num (ratio q a)) (or_introl eq_refl)).
    rewrite E in Hall. discriminate.
  - intros a Ha. apply Hall. apply in_map_iff. eauto.
Qed.

Lemma setAdd_nonempty x set : set <> [] -> setAdd x set <> [].
Proof.
  unfold setAdd. destruct (existsb _ set); [auto|].
  destruct set; [congruence | discriminate].
Qed.

Lemma candidates_have_aliases c :
  In c buildLangCandidates -> aliases c <> [].
Proof.
  unfold buildLangCandidates. intros H.
  apply in_map_iff in H as ([k n] & <- & _). cbn [aliases].
  generalize (extraAliases k).
  assert (Hne : newSet [toLowerCase n; toLowerCase (bareName n);
                        toLowerCase k] <> []).
  { unfold newSet. cbn [fold_left].
    do 2 apply setAdd_nonempty. discriminate. }
  revert Hne.
  generalize (newSet [toLowerCase n; toLowerCase (bareName n);
                      toLowerCase k]).
  intros set Hne extra. revert set Hne.
  induction extra as [|x extra IH]; intros set Hne; cbn [fold_left]; auto.
  apply IH. apply setAdd_nonempty. assumption.
Qed.

Lemma has_alias q l :
  existsb (fun a => str_eqb a q) l = true <-> In q l.
Proof.
  rewrite existsb_exists. split.
  - intros (a & Hin & E). apply str_eqb_eq in E. congruence.
  - intros H. exists q. split; [assumption|]. apply str_eqb_eq. reflexivity.
Qed.

Lemma has_no_alias q l :
  ~ In q l -> existsb (fun a => str_eqb a q) l = false.
Proof.
  intros H. destruct (existsb _ l) eqn:E; [|reflexivity].
  apply has_alias in E. contradiction.
Qed.

Lemma exactAlias_none q l :
  (forall c, In c l -> ~ In q (aliases c)) -> exactAlias q l = None.
Proof.
  induction l as [|c l IH]; intros H; cbn [exactAlias]; [reflexivity|].
  rewrite has_no_alias by (apply H; left; reflexivity).
  apply IH. intros c' Hc'. apply H. right. assumption.
Qed.

Lemma exactAlias_first q pre c post :
  (forall c', In c' pre -> ~ In q (aliases c')) ->
  In q (aliases c) ->
  exactAlias q (pre ++ c :: post)
  = Some (mkLangMatch (code c) (name c) (Num 100)).
Proof.
  induction pre as [|p pre IH]; intros Hpre Hc; cbn [app exactAlias].
  - rewrite (proj2 (has_alias q (aliases c)) Hc). reflexivity.
  - rewrite has_no_alias by (apply Hpre; left; reflexivity).
    apply IH; [|assumption]. intros c' Hc'. apply Hpre. right. assumption.
Qed.

(** The scoring loop keeps a best entry that nothing after it beats. *)
Lemma fuzzyBest_keeps q post b :
  (forall c', In c' post -> num_le (aliasScore q c') (lm_score b)) ->
  fuzzyBest q post (Some b) = Some b.
Proof.
  unfold fuzzyBest. induction post as [|c post IH]; intros H;
    cbn [fold_left]; [reflexivity|].
  rewrite (proj2 (num_not_gt _ _)) by (apply H; left; reflexivity).
  apply IH. intros c' Hc'. apply H. right. assumption.
Qed.

Lemma fuzzyBest_below q s pre :
  forall best,
    (forall b, best = Some b -> num_lt (lm_score b) s) ->
    (forall c', In c' pre -> num_lt (aliasScore q c') s) ->
    forall b, fuzzyBest q pre best = Some b -> num_lt (lm_score b) s.
Proof.
  unfold fuzzyBest.
  induction pre as [|c pre IH]; intros best Hbest Hpre b;
    cbn [fold_left]; [auto|].
  apply IH.
  - intros b' Hb'. destruct best as [b0|].
    + destruct (num_gtb (aliasScore q c) (lm_score b0)).
      * inversion Hb'; subst. apply Hpre. left. reflexivity.
      * auto.
    + inversion Hb'; subst. apply Hpre. left. reflexivity.
  - intros c' Hc'. apply Hpre. right. assumption.
Qed.

Lemma fuzzyBest_app q pre rest best :
  fuzzyBest q (pre ++ rest) best = fuzzyBest q rest (fuzzyBest q pre best).
Proof. unfold fuzzyBest. apply fold_left_app. Qed.

Lemma fuzzyBest_first_max q pre c post :
  (forall c', In c' pre -> num_lt (aliasScore q c') (aliasScore q c)) ->
  (forall c', In c' post -> num_le (aliasScore q c') (aliasScore q c)) ->
  fuzzyBest q (pre ++ c :: post) None
  = Some (mkLangMatch (code c) (name c) (aliasScore q c)).
Proof.
  intros Hpre Hpost. rewrite fuzzyBest_app.
  assert (Hstep : fuzzyBest q [c] (fuzzyBest q pre None)
                  = Some (mkLangMatch (code c) (name c) (aliasScore q c))).
  { pose proof (fuzzyBest_below q (aliasScore q c) pre None) as Hb.
    destruct (fuzzyBest q pre None) as [b|]; [|reflexivity].
    unfold fuzzyBest. cbn [fold_left].
    rewrite (Hb ltac:(discriminate) Hpre b eq_refl). reflexivity. }
  change (c :: post) with ([c] ++ post).
  rewrite fuzzyBest_app, Hstep. apply fuzzyBest_keeps. exact Hpost.
Qed.

Lemma no_alias_in q l :
  forallb (fun c => negb (existsb (fun a => str_eqb a q) (aliases c))) l
  = true ->
  forall c, In c l -> ~ In q (aliases c).
Proof.
  intros H c Hc Hin. rewrite forallb_forall in H. specialize (H c Hc).
  apply has_alias in Hin. rewrite Hin in H. discriminate.
Qed.

(** A list of entries has a first entry of greatest score. *)
Lemma first_max_exists (f : Candidate -> number) l :
  l <> [] ->
  exists pre c post,
    l = pre ++ c :: post
    /\ (forall c', In c' pre -> num_lt (f c') (f c))
    /\ (forall c', In c' post -> num_le (f c') (f c)).
Proof.
  induction l as [|x l IH]; [congruence|]. intros _.
  destruct l as [|y l].
  { exists [], x, []. repeat split; contradiction. }
  destruct (IH ltac:(discriminate)) as (pre & c & post & E & Hpre & Hpost).
  destruct (num_geb (f x) (f c)) eqn:Hx.
  - exists [], x, (y :: l). split; [reflexivity|].
    split; [contradiction|]. intros c' Hc'. rewrite E in Hc'.
    apply in_app_iff in Hc' as [Hc' | [<- | Hc']].
    + specialize (Hpre c' Hc'). revert Hx Hpre.
      generalize (f x), (f c), (f c'). intros; solve_num.
    + exact Hx.
    + specialize (Hpost c' Hc'). revert Hx Hpost.
      generalize (f x), (f c), (f c'). intros; solve_num.
  - exists (x :: pre), c, post. rewrite E. split; [reflexivity|].
    split; [|assumption]. intros c' [<- | Hc']; [|auto].
    revert Hx. generalize (f x), (f c). intros; solve_num.
Qed.

Lemma buildLangCandidates_nonempty : buildLangCandidates <> [].
Proof.
  unfold buildLangCandidates.
  destruct LANG_MAP eqn:E; [vm_compute in E; discriminate|].
  discriminate.
Qed.

(** C5.  [bestLangMatch] returns no match when the normalized query is
    empty.  Otherwise the first entry of the catalogue one of whose
    aliases is the normalized query wins with score 100; when no entry
    has such an alias, an entry is scored by the greatest
    [fuzz.ratio] of the query with its aliases, the first entry in
    catalogue order that reaches the greatest score (there is one) is
    the best one, and the result is no match when its score is below
    55. *)
Theorem bestLangMatch_resolution query :
  let q := normalizeQueryLoose query in
  (q = [] -> bestLangMatch query = None)
  /\ (q <> [] ->
      forall pre c post,
        buildLangCandidates = pre ++ c :: post ->
        (forall c', In c' pre -> ~ In q (aliases c')) ->
        (In q (aliases c) ->
         bestLangMatch query
         = Some (mkLangMatch (code c) (name c) (Num 100)))
        /\ ((forall c', In c' (c :: post) -> ~ In q (aliases c')) ->
            (forall c', In c' pre ->
                        num_lt (aliasScore q c') (aliasScore q c)) ->
            (forall c', In c' post ->
                        num_le (aliasScore q c') (aliasScore q c)) ->
            bestLangMatch query
            = if num_geb (aliasScore q c) (Num 55)
              then Some (mkLangMatch (code c) (name c) (aliasScore q c))
              else None))
  /\ (forall c,
        In c buildLangCandidates ->
        In (aliasScore q c) (map (fun a => Num (ratio q a)) (aliases c))
        /\ forall a, In a (aliases c) ->
                     num_le (Num (ratio q a)) (aliasScore q c))
  /\ (exists pre c post,
        buildLangCandidates = pre ++ c :: post
        /\ (forall c', In c' pre ->
                        num_lt (aliasScore q c') (aliasScore q c))
        /\ (forall c', In c' post ->
                        num_le (aliasScore q c') (aliasScore q c))).
Proof.
  intros q. unfold bestLangMatch. fold q.
  split; [|split; [|split;
    [|apply first_max_exists; apply buildLangCandidates_nonempty]]].
  - intros ->. reflexivity.
  - intros Hq pre c post Hcat Hpre.
    destruct q as [|u q'] eqn:E; [congruence|]. rewrite <- E in *.
    rewrite Hcat. split.
    + intros Hc. rewrite exactAlias_first by assumption. reflexivity.
    + intros Hnone Hlt Hle.
      rewrite exactAlias_none.
      * rewrite fuzzyBest_first_max by assumption. reflexivity.
      * intros c' Hc'. apply in_app_iff in Hc' as [Hc' | Hc']; auto.
  - intros c Hc. apply aliasScore_max.
    apply candidates_have_aliases. assumption.
Qed.
End Properties.

(** * Further properties *)

(** ** The chat-line pattern *)

(** A match found by the search is a match at some index. *)
Lemma searchFrom_inv r aft :
  forall bef m,
    searchFrom r bef aft = Some m ->
    exists skipped rest,
      aft = skipped ++ rest /\ matchAt r (rev skipped ++ bef) rest = Some m.
Proof.
  induction aft as [|c aft IH]; intros bef m H; cbn [searchFrom] in H.
  - destruct (matchAt r bef []) eqn:E; [|discriminate].
    exists [], []. split; [reflexivity|]. cbn. congruence.
  - destruct (matchAt r bef (c :: aft)) eqn:E.
    + exists [], (c :: aft). split; [reflexivity|]. cbn. congruence.
    + apply IH in H as (skipped & rest & -> & H).
      exists (c :: skipped), rest. split; [reflexivity|].
      cbn [rev]. rewrite <- app_assoc. exact H.
Qed.

Lemma firstn_consumed (s rest : jsstring) n :
  (n <= length s)%nat ->
  firstn (length s - length (skipn n s)) s = firstn n s.
Proof. intros H. rewrite length_skipn. f_equal. lia. Qed.

Lemma lit_eq (c : string) a x :
  js c = [a] -> lit c x = true -> x = a.
Proof.
  unfold lit. intros ->. unfold cu_eqb. apply N.eqb_eq.
Qed.

(** What follows the channel in a chat line. *)
Lemma line_tail_inv (k : MState -> option Match) bef aft cs m :
  (forall st x, k st = Some x -> m_rest x = after st /\ m_caps x = caps st) ->
  matchRe
    (seq [Char (lit "]"); plus isWhiteSpace;
          Group 2 (plus (noneOf [lit ":"])); Char (lit ":");
          Char isWhiteSpace; Group 3 (plus dot)])
    (mkMState bef aft cs) k = Some m ->
  exists ws sender w raw,
    aft = js "]" ++ ws ++ sender ++ js ":" ++ [w] ++ raw ++ m_rest m
    /\ ws <> [] /\ forallb isWhiteSpace ws = true
    /\ sender <> [] /\ forallb (noneOf [lit ":"]) sender = true
    /\ isWhiteSpace w = true
    /\ raw <> [] /\ forallb dot raw = true
    /\ m_caps m = (3%nat, raw) :: (2%nat, sender) :: cs.
Proof.
  intros Hk. unfold plus. cbn [seq fold_right matchRe after before caps].
  destruct aft as [|c0 a0]; [discriminate|].
  destruct (lit "]" c0) eqn:E0; [|discriminate].
  apply (lit_eq "]" 0x5D) in E0; [|reflexivity]. subst c0.
  intros H. apply repeatGreedy_inv in H as (n1 & Hn1 & Hws & H).
  cbn [before after caps] in H.
  apply repeatGreedy_inv in H as (n2 & Hn2 & Hsender & H).
  cbn [before after caps] in H.
  rewrite firstn_consumed in H by (exact [] || lia).
  destruct (skipn n2 (skipn n1 a0)) as [|c1 a1] eqn:E1; [discriminate|].
  destruct (lit ":" c1) eqn:Ec1; [|discriminate].
  apply (lit_eq ":" 0x3A) in Ec1; [|reflexivity]. subst c1.
  destruct a1 as [|w a2]; [discriminate|].
  destruct (isWhiteSpace w) eqn:Ew; [|discriminate].
  apply repeatGreedy_inv in H as (n3 & Hn3 & Hraw & H).
  cbn [before after caps] in H.
  rewrite firstn_consumed in H by (exact [] || lia).
  apply Hk in H as [Hrest Hcaps]. cbn [after caps] in Hrest, Hcaps.
  exists (firstn n1 a0), (firstn n2 (skipn n1 a0)), w, (firstn n3 a2).
  assert (Hne : forall n (s : jsstring),
             (1 <= n <= length s)%nat -> firstn n s <> []).
  { intros n s Hn E. apply (f_equal (@length cu)) in E.
    rewrite length_firstn in E. cbn in E. lia. }
  repeat split; auto.
  rewrite Hrest. change (js "]") with [0x5D]. change (js ":") with [0x3A].
  cbn [app]. f_equal. rewrite (firstn_skipn n3 a2), <- E1.
  rewrite !firstn_skipn. reflexivity.
Qed.

Ltac eat_unit H :=
  match type of H with
  | match ?a with [] => None | _ :: _ => _ end = Some _ =>
      let c := fresh "c" in
      let r := fresh "r" in
      destruct a as [|c r]; [discriminate H|]
  end;
  match type of H with
  | (if ?b then _ else None) = Some _ =>
      let E := fresh "E" in
      destruct b eqn:E; [|discriminate H]
  end.

(** The shape of a line that the chat-line pattern matches, and what its
    three groups capture. *)
Lemma re_line_inv line m :
  exec re_line line = Some m ->
  exists pre team ws sender w raw,
    line = pre ++ js "[" ++ team ++ js "]" ++ ws ++ sender ++ js ":" ++ [w]
           ++ raw ++ m_rest m
    /\ (team = js "CT" \/ team = js "T" \/ team = js "ALL")
    /\ ws <> [] /\ forallb isWhiteSpace ws = true
    /\ sender <> [] /\ forallb (noneOf [lit ":"]) sender = true
    /\ isWhiteSpace w = true
    /\ raw <> [] /\ forallb dot raw = true
    /\ m_caps m = [(3%nat, raw); (2%nat, sender); (1%nat, team)].
Proof.
  unfold exec. intros H.
  apply searchFrom_inv in H as (pre & rest & -> & H).
  unfold matchAt in H.
  match type of H with
  | matchRe _ _ ?K = _ => remember K as k eqn:Hkdef
  end.
  assert (Hk : forall st x,
             k st = Some x -> m_rest x = after st /\ m_caps x = caps st).
  { intros st x Hx. rewrite Hkdef in Hx. inversion Hx. auto. }
  clear Hkdef.
  assert (Hre : re_line
                = Seq (Char (lit "["))
                    (Seq (Group 1
                            (Alt (seq [Char (lit "C"); Char (lit "T")])
                               (Alt (seq [Char (lit "T")])
                                  (seq [Char (lit "A"); Char (lit "L");
                                        Char (lit "L")]))))
                       (seq [Char (lit "]"); plus isWhiteSpace;
                             Group 2 (plus (noneOf [lit ":"]));
                             Char (lit ":"); Char isWhiteSpace;
                             Group 3 (plus dot)])))
    by reflexivity.
  rewrite Hre in H. clear Hre.
  remember (seq [Char (lit "]"); plus isWhiteSpace;
                 Group 2 (plus (noneOf [lit ":"])); Char (lit ":");
                 Char isWhiteSpace; Group 3 (plus dot)]) as tail eqn:Htail.
  cbn [matchRe seq fold_right after before caps] in H.
  eat_unit H. apply (lit_eq "[" 0x5B) in E; [|reflexivity]. subst c.
  assert (Hdone : forall team a cs,
             r = team ++ a ->
             (team = js "CT" \/ team = js "T" \/ team = js "ALL") ->
             cs = [(1%nat,
                    firstn (length (team ++ a) - length a) (team ++ a))] ->
             forall b, matchRe tail (mkMState b a cs) k = Some m ->
             exists pre' team ws sender w raw,
               pre ++ 0x5B :: r
               = pre' ++ js "[" ++ team ++ js "]" ++ ws ++ sender ++ js ":"
                 ++ [w] ++ raw ++ m_rest m
               /\ (team = js "CT" \/ team = js "T" \/ team = js "ALL")
               /\ ws <> [] /\ forallb isWhiteSpace ws = true
               /\ sender <> [] /\ forallb (noneOf [lit ":"]) sender = true
               /\ isWhiteSpace w = true
               /\ raw <> [] /\ forallb dot raw = true
               /\ m_caps m = [(3%nat, raw); (2%nat, sender); (1%nat, team)]).
  { intros team a cs -> Hteam -> b Hm. rewrite Htail in Hm.
    rewrite length_app, Nat.add_sub, firstn_app, Nat.sub_diag, firstn_all,
      app_nil_r in Hm.
    apply line_tail_inv in Hm as (ws & sender & w & raw & -> & Hrest);
      [|exact Hk].
    exists pre, team, ws, sender, w, raw. split; [reflexivity|].
    split; [exact Hteam|]. exact Hrest. }
  match type of H with
  | orTry ?X (orTry ?Y ?Z) = Some _ =>
      destruct X as [x|] eqn:EX;
      [cbn [orTry] in H; injection H as ->
      | destruct Y as [y|] eqn:EY;
        [cbn [orTry] in H; injection H as ->
        | cbn [orTry] in H; rename H into EZ]]
  end.
  - eat_unit EX. eat_unit EX.
    apply (lit_eq "C" 0x43) in E; [|reflexivity].
    apply (lit_eq "T" 0x54) in E0; [|reflexivity]. subst.
    eapply (Hdone (js "CT")); [reflexivity | auto | reflexivity | exact EX].
  - eat_unit EY.
    apply (lit_eq "T" 0x54) in E; [|reflexivity]. subst.
    eapply (Hdone (js "T")); [reflexivity | auto | reflexivity | exact EY].
  - eat_unit EZ. eat_unit EZ. eat_unit EZ.
    apply (lit_eq "A" 0x41) in E; [|reflexivity].
    apply (lit_eq "L" 0x4C) in E0; [|reflexivity].
    apply (lit_eq "L" 0x4C) in E1; [|reflexivity]. subst.
    eapply (Hdone (js "ALL")); [reflexivity | auto | reflexivity | exact EZ].
Qed.

Lemma In_trimStart c s : In c (trimStart s) -> In c s.
Proof.
  induction s as [|a s IH]; cbn [trimStart]; [auto|].
  destruct (isWhiteSpace a); [|auto]. intros H. right. auto.
Qed.

Lemma In_trim c s : In c (trim s) -> In c s.
Proof.
  unfold trim, trimEnd. intros H.
  apply in_rev, In_trimStart, in_rev, In_trimStart in H. exact H.
Qed.

Section LineProperties.

Context {imports : Imports}.

(** The channel of a matched chat line, and the units that the line
    holds. *)
Lemma line_shape line m :
  exec re_line line = Some m ->
  (lineTeam m = js "CT" \/ lineTeam m = js "T" \/ lineTeam m = js "ALL")
  /\ In 0x5B line /\ In 0x5D line /\ In 0x3A line.
Proof.
  intros H.
  apply re_line_inv in H
    as (pre & team & ws & sender & w & raw & -> & Hteam & _ & _ & _
        & _ & _ & _ & _ & Hcaps).
  unfold lineTeam. rewrite Hcaps. cbn [capture Nat.eqb]. split.
  - destruct Hteam as [-> | [-> | ->]]; vm_compute; auto.
  - change (js "[") with [0x5B]. change (js "]") with [0x5D].
    change (js ":") with [0x3A]. rewrite !in_app_iff. cbn [In]. tauto.
Qed.

(** X1.  A line that the chat-line pattern matches has the channel [CT],
    [T] or [ALL] (the team flag is off exactly for [ALL]), a sender
    without a colon and a message without a line terminator; the line
    itself holds a bracketed channel and a colon. *)
Theorem chat_line_fields line m :
  exec re_line line = Some m ->
  (lineTeam m = js "CT" \/ lineTeam m = js "T" \/ lineTeam m = js "ALL")
  /\ (lineIsTeam m = false <-> lineTeam m = js "ALL")
  /\ (forall c, In c (lineSender m) -> c <> 0x3A)
  /\ (forall c, In c (lineMessage m) -> isLineTerminator c = false)
  /\ In 0x5B line /\ In 0x5D line /\ In 0x3A line.
Proof.
  intros H.
  apply re_line_inv in H
    as (pre & team & ws & sender & w & raw & -> & Hteam & _ & _ & Hs
        & Hsender & _ & Hr & Hraw & Hcaps).
  unfold lineIsTeam, lineTeam, lineSender, lineMessage. rewrite Hcaps.
  cbn [capture Nat.eqb].
  destruct sender as [|s0 sender]; [congruence|].
  destruct raw as [|r0 raw]; [congruence|].
  assert (Hin : In 0x5B (pre ++ js "[" ++ team ++ js "]" ++ ws
                         ++ (s0 :: sender) ++ js ":" ++ [w] ++ (r0 :: raw)
                         ++ m_rest m)
                /\ In 0x5D (pre ++ js "[" ++ team ++ js "]" ++ ws
                            ++ (s0 :: sender) ++ js ":" ++ [w]
                            ++ (r0 :: raw) ++ m_rest m)
                /\ In 0x3A (pre ++ js "[" ++ team ++ js "]" ++ ws
                            ++ (s0 :: sender) ++ js ":" ++ [w]
                            ++ (r0 :: raw) ++ m_rest m)).
  { change (js "[") with [0x5B]. change (js "]") with [0x5D].
    change (js ":") with [0x3A]. rewrite !in_app_iff. cbn [In]. tauto. }
  cbn [orElse].
  assert (Hfields :
            (forall c, In c (trim (s0 :: sender)) -> c <> 0x3A)
            /\ (forall c, In c (trim (r0 :: raw)) ->
                          isLineTerminator c = false)).
  { split.
    - intros c Hc E. apply In_trim in Hc.
      rewrite forallb_forall in Hsender. specialize (Hsender c Hc).
      subst c. discriminate Hsender.
    - intros c Hc. apply In_trim in Hc.
      rewrite forallb_forall in Hraw. specialize (Hraw c Hc).
      unfold dot in Hraw. apply negb_true_iff in Hraw. exact Hraw. }
  destruct Hfields as [Hf1 Hf2].
  destruct Hteam as [-> | [-> | ->]]; cbn [orElse js list_ascii_of_string map];
    (split; [auto|]);
    (split; [vm_compute; split; intros E; (reflexivity || discriminate E)|]);
    (split; [exact Hf1|]); (split; [exact Hf2|]); exact Hin.
Qed.

(** X2.  A line without a colon, or without an opening or a closing
    bracket, is ignored: nothing is logged, translated, remembered or
    sent. *)
Theorem lines_of_another_shape_are_ignored line mem :
  ~ In 0x3A line \/ ~ In 0x5B line \/ ~ In 0x5D line ->
  handleLine line mem = mkRun (Normal tt) mem [].
Proof.
  intros H. destruct (exec re_line line) as [m|] eqn:E.
  - apply line_shape in E as (_ & H1 & H2 & H3). tauto.
  - apply handleLine_none. assumption.
Qed.

End LineProperties.

(** ** What a line sends, and in what order *)

Lemma outbound_app a b : outbound (a ++ b) = outbound a ++ outbound b.
Proof. apply filter_app. Qed.

Section ReplyProperties.

Context {imports : Imports}.

Ltac run_effects :=
  repeat (progress
            (cbv beta iota zeta delta
                 [bind writeChatCfg pressBindKeyLater log emit ret
                  getLastForeignMsg setLastForeignMsg result memory events];
             rewrite ?smartTranslate_run));
  cbn [app].

Lemma smartOutcome_outbound text toLang :
  outbound (snd (smartOutcome text toLang)) = [].
Proof.
  unfold smartOutcome.
  destruct (translate text None toLang) as [res | e]; auto.
  destruct (shouldForceRu text res); auto.
  destruct (translate text (Some (js "ru")) toLang); auto.
Qed.

(** What [handleTl] does with a [_tl] command. *)
Lemma handleTl_run isTeam message mem :
  test re_tl message = true ->
  handleTl isTeam message mem
  = match mem with
    | None =>
        mkRun (Normal true) None
          [EWriteChatCfg noRecentMessage isTeam;
           EConsole (LogWroteCfg isTeam noRecentMessage);
           ESetTimeoutPressBindKey 150;
           EConsole (LogWarn noRecentMessage)]
    | Some last =>
        let target := tlTarget message in
        let res := fst (smartOutcome (last_message last) target) in
        let output :=
          saidReply (last_player last) (tr_text res)
            (originalLangReadable res) in
        mkRun (Normal true) mem
          (snd (smartOutcome (last_message last) target)
           ++ [EWriteChatCfg output isTeam;
               EConsole (LogWroteCfg isTeam output);
               ESetTimeoutPressBindKey 150;
               EConsole (LogTlSent target);
               EConsole (LogKV (js "from") (originalLangReadable res));
               EConsole (LogKV (js "player") (last_player last));
               EConsole (LogKV (js "text") (tr_text res))])
    end.
Proof.
  intros H. unfold handleTl, tlTarget, noRecentMessage. rewrite H.
  cbn [negb]. destruct mem as [last|]; run_effects; reflexivity.
Qed.

(** The events of [handleLine] after the chat line is logged. *)
Lemma handleLine_outbound line m mem :
  exec re_line line = Some m ->
  outbound (events (handleLine line mem)) = []
  \/ exists reply,
       outbound (events (handleLine line mem))
       = [EWriteChatCfg reply (lineIsTeam m); ESetTimeoutPressBindKey 150].
Proof.
  intros H. rewrite handleLine_run with (m := m) by assumption.
  cbn [events]. change (outbound (?e :: ?l)) with (outbound l).
  destruct (test re_tl (lineMessage m)) eqn:Etl.
  { rewrite handleTl_run by assumption.
    destruct (tracked m mem) as [last|]; cbn [events].
    - right. rewrite outbound_app, smartOutcome_outbound. cbn. eauto.
    - right. cbn. eauto. }
  destruct (exec re_code (lineMessage m)) as [mc|] eqn:Ecode.
  { rewrite handleCodeLang_some with (m := mc) by assumption.
    cbn [isSome]. destruct (trim _); cbn; eauto. }
  cbn [isSome]. destruct (test re_tm (lineMessage m)) eqn:Etm.
  { rewrite handleTm_true by assumption.
    destruct (tmText (lineMessage m)); cbn [events]; [auto|].
    right. rewrite outbound_app, smartOutcome_outbound. cbn. eauto. }
  left. rewrite autoTranslateToConsole_run.
  destruct (_ || _); cbn [events]; [reflexivity|].
  rewrite outbound_app, smartOutcome_outbound.
  destruct (str_eqb _ _); reflexivity.
Qed.

(** X3.  A line is answered by at most one write of [chat_reader.cfg],
    followed by exactly one timer of 150 ms for the key press; the write
    comes first, there is no timer without a write, and the reply is a
    team message exactly when the line came from [CT] or [T]. *)
Theorem reply_is_written_then_triggered line m mem :
  exec re_line line = Some m ->
  let sent := outbound (events (handleLine line mem)) in
  (wantsReply (lineMessage m) = false -> sent = [])
  /\ (wantsReply (lineMessage m) = true ->
      exists reply,
        sent = [EWriteChatCfg reply (negb (str_eqb (lineTeam m) (js "ALL")));
                ESetTimeoutPressBindKey 150]).
Proof.
  intros H sent.
  pose proof (handleLine_replies line m mem H) as Hn.
  pose proof (line_shape line m H) as (Hteam & _).
  assert (Hflag : lineIsTeam m = negb (str_eqb (lineTeam m) (js "ALL"))).
  { unfold lineIsTeam.
    destruct Hteam as [-> | [-> | ->]]; vm_compute; reflexivity. }
  assert (Hr : forall evs, replies evs = replies (outbound evs)).
  { induction evs as [|e evs IH]; [reflexivity|].
    destruct e; cbn; rewrite ?IH; auto. f_equal. exact IH. }
  rewrite Hr in Hn. fold sent in Hn.
  destruct (handleLine_outbound line m mem H) as [E | (reply & E)];
    fold sent in E; rewrite E in Hn; cbn in Hn.
  - destruct (wantsReply (lineMessage m)); [discriminate|].
    split; [auto | discriminate].
  - destruct (wantsReply (lineMessage m)); [|discriminate].
    split; [discriminate|]. intros _. exists reply.
    rewrite <- Hflag. exact E.
Qed.

(** X4.  A line that is not answered in chat never makes [handleLine]
    fail, whatever the translation API does: nothing is written for the
    game, and a rejected call of the API is caught. *)
Theorem unanswered_lines_complete line m mem :
  exec re_line line = Some m ->
  wantsReply (lineMessage m) = false ->
  result (handleLine line mem) = Normal tt
  /\ outbound (events (handleLine line mem)) = [].
Proof.
  intros H Hno. split.
  - rewrite handleLine_run with (m := m) by assumption. reflexivity.
  - pose proof (handleLine_replies line m mem H) as Hn.
    rewrite Hno in Hn.
    destruct (handleLine_outbound line m mem H) as [E | (reply & E)];
      [exact E|].
    assert (Hr : forall evs, replies evs = replies (outbound evs)).
    { induction evs as [|e evs IH]; [reflexivity|].
      destruct e; cbn; rewrite ?IH; auto. f_equal. exact IH. }
    rewrite Hr, E in Hn. discriminate Hn.
Qed.

(** X5.  A [_tl] command that finds nothing remembered is answered with
    the notice "No recent message to translate." and nothing else: the
    translation API is not called, whatever language the command
    names. *)
Theorem tl_without_memory line m :
  exec re_line line = Some m ->
  test re_tl (lineMessage m) = true ->
  handleLine line None
  = mkRun (Normal tt) None
      [EConsole (LogChat (lineTeam m) (lineSender m) (lineMessage m));
       EWriteChatCfg noRecentMessage (lineIsTeam m);
       EConsole (LogWroteCfg (lineIsTeam m) noRecentMessage);
       ESetTimeoutPressBindKey 150;
       EConsole (LogWarn noRecentMessage)].
Proof.
  intros H Htl. rewrite handleLine_run with (m := m) by assumption.
  assert (Et : tracked m None = None).
  { unfold tracked. rewrite test_re_command, Htl, orb_true_r.
    reflexivity. }
  rewrite Et, Htl, handleTl_run by assumption. reflexivity.
Qed.



(** X7.  When the translation API fails on a [tm_] command, the command
    is still answered: the reply repeats the text as it was typed and
    names the source [UNKNOWN]. *)
Theorem tm_reply_when_translation_fails line m mem errMessage :
  exec re_line line = Some m ->
  let message := lineMessage m in
  test re_tm message = true ->
  tmText message <> [] ->
  translate (tmText message) None (tmLang message) = Rejected errMessage ->
  replies (events (handleLine line mem))
  = [(saidReply (lineSender m) (tmText message) (js "UNKNOWN"),
      lineIsTeam m)].
Proof.
  intros H message Htm Htext Hfail.
  rewrite handleLine_run with (m := m) by assumption. fold message.
  destruct (commands_exclusive message) as [Htl Hcode].
  specialize (Hcode Htm).
  assert (Etl : test re_tl message = false).
  { destruct (test re_tl message); [|reflexivity].
    destruct (Htl eq_refl). congruence. }
  assert (Ec : exec re_code message = None).
  { destruct (exec re_code message) as [mc|] eqn:E; [|reflexivity].
    apply re_code_inv in E as [E _]. congruence. }
  rewrite Etl, Ec, Htm. cbn [isSome events].
  change (replies (?e :: ?l)) with (replies l).
  rewrite handleTm_true by assumption.
  destruct (tmText message) as [|c text] eqn:E; [congruence|].
  cbn [events]. rewrite replies_app, smartOutcome_replies.
  unfold smartOutcome. rewrite Hfail. cbn [fst app replies flat_map].
  assert (Eu : originalLangReadable
                 (mkTranslation (c :: text) (Some (js "unknown")) None)
               = js "UNKNOWN") by (vm_compute; reflexivity).
  rewrite Eu. reflexivity.
Qed.

End ReplyProperties.

(** ** Global replacement, by the shape of the pattern *)

Lemma takeWhile_dropWhile p s : takeWhile p s ++ dropWhile p s = s.
Proof.
  induction s as [|c s IH]; cbn; [reflexivity|].
  destruct (p c); cbn; [rewrite IH|]; reflexivity.
Qed.

Lemma length_dropWhile p s : (length (dropWhile p s) <= length s)%nat.
Proof.
  induction s as [|c s IH]; cbn; [auto|]. destruct (p c); cbn; lia.
Qed.

Lemma skipn_rev_app (bef skipped : jsstring) :
  skipn (length bef) (rev bef ++ skipped) = skipped.
Proof.
  rewrite <- (length_rev bef), skipn_app, skipn_all, Nat.sub_diag.
  reflexivity.
Qed.

(** The leftmost unit of a class. *)
Lemma searchFrom_Char_first p aft :
  forall bef,
    searchFrom (Char p) bef aft
    = match dropWhile (fun c => negb (p c)) aft with
      | [] => None
      | x :: rest =>
          Some (mkMatch (rev bef ++ takeWhile (fun c => negb (p c)) aft)
                  [x] rest [])
      end.
Proof.
  induction aft as [|c aft IH]; intros bef; [reflexivity|].
  cbn [searchFrom dropWhile takeWhile]. unfold matchAt.
  cbn [matchRe after before caps]. destruct (p c); cbn [negb].
  - rewrite app_nil_r. do 2 f_equal. cbn [length].
    replace (S (length aft) - length aft)%nat with 1%nat by lia.
    reflexivity.
  - rewrite IH. destruct (dropWhile _ aft); [reflexivity|].
    cbn [rev]. rewrite <- app_assoc. reflexivity.
Qed.

Lemma substUnits_none p by_ s :
  dropWhile (fun c => negb (p c)) s = [] -> substUnits p by_ s = s.
Proof.
  unfold substUnits. induction s as [|c s IH]; cbn; [reflexivity|].
  destruct (p c); cbn; [discriminate|]. intros H. rewrite IH; auto.
Qed.

Lemma substUnits_first p by_ s x rest :
  dropWhile (fun c => negb (p c)) s = x :: rest ->
  substUnits p by_ s
  = takeWhile (fun c => negb (p c)) s ++ by_ ++ substUnits p by_ rest.
Proof.
  unfold substUnits. induction s as [|c s IH]; cbn; [discriminate|].
  destruct (p c) eqn:E; cbn.
  - intros H. injection H as <- <-. reflexivity.
  - intros H. rewrite IH by assumption. reflexivity.
Qed.

Lemma replaceFrom_Char p by_ fuel :
  forall bef aft,
    (length aft < fuel)%nat ->
    replaceFrom fuel (Char p) by_ bef aft = substUnits p by_ aft.
Proof.
  induction fuel as [|fuel IH]; intros bef aft H; [lia|].
  cbn [replaceFrom]. rewrite searchFrom_Char_first.
  destruct (dropWhile (fun c => negb (p c)) aft) as [|x rest] eqn:E.
  - symmetry. apply substUnits_none. assumption.
  - cbn [m_text m_rest m_prefix]. rewrite skipn_rev_app.
    rewrite IH, (substUnits_first p by_ aft x rest E); [reflexivity|].
    pose proof (length_dropWhile (fun c => negb (p c)) aft) as Hl.
    rewrite E in Hl. cbn [length] in Hl. lia.
Qed.

(** Replacing every unit of a class is a substitution unit by unit. *)
Lemma replaceAll_Char p by_ s :
  replaceAll (Char p) by_ s = substUnits p by_ s.
Proof. apply replaceFrom_Char. auto. Qed.

(** A greedy quantifier before a pattern that cannot fail takes the whole
    run. *)
Lemma repeatGreedy_maximal A p (k : MState -> option A) :
  (forall st, k st <> None) ->
  forall aft min bef cs,
    repeatGreedy p min None bef aft cs k
    = if (min <=? length (takeWhile p aft))%nat
      then k (mkMState (rev (takeWhile p aft) ++ bef) (dropWhile p aft) cs)
      else None.
Proof.
  intros Hk. induction aft as [|c aft IH]; intros min bef cs.
  - cbn. destruct min; reflexivity.
  - cbn [repeatGreedy takeWhile dropWhile option_map]. destruct (p c).
    + rewrite IH. cbn [length rev]. rewrite <- app_assoc. cbn [app].
      destruct min as [|min]; cbn [pred Nat.leb].
      * destruct (k _) eqn:E; [reflexivity|]. apply Hk in E. contradiction.
      * destruct (min <=? length (takeWhile p aft))%nat; [|reflexivity].
        destruct (k _) eqn:E; [reflexivity|]. apply Hk in E. contradiction.
    + destruct min; reflexivity.
Qed.

Lemma firstn_takeWhile p s :
  firstn (length s - length (dropWhile p s)) s = takeWhile p s.
Proof.
  rewrite <- (takeWhile_dropWhile p s) at 1 3.
  rewrite length_app, Nat.add_sub, firstn_app, Nat.sub_diag, firstn_all.
  cbn. apply app_nil_r.
Qed.

Lemma matchAt_plus p bef aft :
  matchAt (plus p) bef aft
  = match takeWhile p aft with
    | [] => None
    | _ :: _ => Some (mkMatch (rev bef) (takeWhile p aft) (dropWhile p aft) [])
    end.
Proof.
  unfold matchAt, plus. cbn [matchRe before after caps].
  rewrite repeatGreedy_maximal by discriminate.
  cbn [after caps]. rewrite firstn_takeWhile.
  destruct (takeWhile p aft); reflexivity.
Qed.

(** The leftmost run of units of a class. *)
Lemma searchFrom_plus p aft :
  forall bef,
    searchFrom (plus p) bef aft
    = match dropWhile (fun c => negb (p c)) aft with
      | [] => None
      | x :: rest =>
          Some (mkMatch (rev bef ++ takeWhile (fun c => negb (p c)) aft)
                  (takeWhile p (x :: rest)) (dropWhile p (x :: rest)) [])
      end.
Proof.
  induction aft as [|c aft IH]; intros bef.
  - cbn [searchFrom]. rewrite matchAt_plus. reflexivity.
  - cbn [searchFrom]. rewrite matchAt_plus.
    cbn [takeWhile dropWhile]. destruct (p c) eqn:E; cbn [negb].
    + rewrite app_nil_r. cbn [takeWhile dropWhile]. rewrite E. reflexivity.
    + rewrite IH. destruct (dropWhile _ aft); [reflexivity|].
      cbn [rev]. rewrite <- app_assoc. reflexivity.
Qed.

Lemma collapseRuns_none p by_ s :
  dropWhile (fun c => negb (p c)) s = [] -> collapseRuns p by_ false s = s.
Proof.
  induction s as [|c s IH]; cbn; [reflexivity|].
  destruct (p c); cbn; [discriminate|]. intros H. rewrite IH; auto.
Qed.

Lemma collapseRuns_in_run p by_ s :
  collapseRuns p by_ true s = collapseRuns p by_ false (dropWhile p s).
Proof.
  induction s as [|c s IH]; cbn; [reflexivity|].
  destruct (p c) eqn:E; cbn; [exact IH|]. rewrite E. reflexivity.
Qed.

Lemma collapseRuns_first p by_ s x rest :
  dropWhile (fun c => negb (p c)) s = x :: rest ->
  collapseRuns p by_ false s
  = takeWhile (fun c => negb (p c)) s ++ by_
    ++ collapseRuns p by_ false (dropWhile p (x :: rest)).
Proof.
  induction s as [|c s IH]; cbn [dropWhile takeWhile collapseRuns];
    [discriminate|].
  destruct (p c) eqn:E; cbn [negb].
  - intros H. injection H as <- <-. cbn [app dropWhile]. rewrite E.
    rewrite collapseRuns_in_run. reflexivity.
  - intros H. rewrite IH by assumption. reflexivity.
Qed.

Lemma replaceFrom_plus p by_ fuel :
  forall bef aft,
    (length aft < fuel)%nat ->
    replaceFrom fuel (plus p) by_ bef aft = collapseRuns p by_ false aft.
Proof.
  induction fuel as [|fuel IH]; intros bef aft H; [lia|].
  cbn [replaceFrom]. rewrite searchFrom_plus.
  destruct (dropWhile (fun c => negb (p c)) aft) as [|x rest] eqn:E.
  - symmetry. apply collapseRuns_none. assumption.
  - assert (Hx : p x = true).
    { clear -E. induction aft as [|c aft IH]; cbn in E; [discriminate|].
      destruct (p c) eqn:Ec; cbn in E; [congruence | auto]. }
    cbn [m_text m_rest m_prefix takeWhile]. rewrite Hx.
    rewrite skipn_rev_app, (collapseRuns_first p by_ aft x rest E).
    rewrite IH; [reflexivity|].
    pose proof (length_dropWhile (fun c => negb (p c)) aft) as Hl.
    pose proof (length_dropWhile p (x :: rest)) as Hl'.
    rewrite E in Hl. cbn [dropWhile] in Hl'. rewrite Hx in Hl'.
    cbn [dropWhile]. rewrite Hx. cbn [length] in *.
    pose proof (length_dropWhile p rest). lia.
Qed.

(** Replacing every run of units of a class collapses the runs. *)
Lemma replaceAll_plus p by_ s :
  replaceAll (plus p) by_ s = collapseRuns p by_ false s.
Proof. apply replaceFrom_plus. auto. Qed.

(** ** The text written to [chat_reader.cfg] *)

Lemma flat_map_flat_map {A B C} (f : A -> list B) (g : B -> list C) l :
  flat_map g (flat_map f l) = flat_map (fun a => flat_map g (f a)) l.
Proof.
  induction l as [|a l IH]; cbn; [reflexivity|].
  rewrite flat_map_app, IH. reflexivity.
Qed.

Lemma escapeForCfg_units text :
  escapeForCfg text = flat_map escapeUnit text.
Proof.
  unfold escapeForCfg. rewrite !replaceAll_Char. unfold substUnits.
  rewrite flat_map_flat_map. apply flat_map_ext. intros c.
  assert (E1 : lit "\" c = (c =? 0x5C)) by reflexivity.
  assert (E2 : forall x, codeUnit 0x22 x = (x =? 0x22)) by reflexivity.
  rewrite E1. unfold escapeUnit.
  destruct (c =? 0x5C) eqn:H1; [reflexivity|].
  cbn [flat_map app]. rewrite E2.
  destruct (c =? 0x22); reflexivity.
Qed.

Lemma readQuoted_escapeUnit c rest :
  readQuoted (escapeUnit c ++ rest) = c :: readQuoted rest.
Proof.
  unfold escapeUnit.
  destruct (c =? 0x5C) eqn:E1.
  { apply N.eqb_eq in E1. subst c. reflexivity. }
  destruct (c =? 0x22) eqn:E2.
  { apply N.eqb_eq in E2. subst c. reflexivity. }
  cbn [app readQuoted]. rewrite E1, E2. reflexivity.
Qed.

(** X8.  [escapeForCfg] puts one backslash before every backslash and
    every double quote and changes nothing else, so the quoted argument of
    the [say] command written to [chat_reader.cfg] never ends before its
    closing quote: read back with backslash as the escape, it is the
    message, whatever follows the closing quote. *)
Theorem escaped_message_reads_back message team :
  escapeForCfg message = flat_map escapeUnit message
  /\ (forall rest,
        readQuoted (escapeForCfg message ++ 0x22 :: rest) = message)
  /\ chatCfgText message team
     = js "// Auto-generated by CS2 Chat Translator" ++ [0x0A]
       ++ (if team then js "say_team " else js "say ")
       ++ [0x22] ++ escapeForCfg message ++ [0x22; 0x0A].
Proof.
  split; [apply escapeForCfg_units|]. split.
  - intros rest. rewrite escapeForCfg_units.
    induction message as [|c s IH]; cbn [flat_map app].
    + reflexivity.
    + rewrite <- app_assoc, readQuoted_escapeUnit, IH. reflexivity.
  - unfold chatCfgText. destruct team; rewrite <- ?app_assoc; reflexivity.
Qed.

(** ** The normalized query *)

Lemma In_substUnits p by_ s c :
  In c (substUnits p by_ s) -> In c by_ \/ (In c s /\ p c = false).
Proof.
  unfold substUnits. induction s as [|a s IH]; cbn [flat_map In];
    [contradiction|].
  rewrite in_app_iff. intros [H | H].
  - destruct (p a) eqn:E; [auto|].
    destruct H as [<- | []]. right. split; [left; reflexivity | exact E].
  - destruct (IH H) as [H' | [H' E]]; [auto|]. right. split; [right|]; auto.
Qed.

Lemma In_collapseRuns p by_ s c :
  forall inRun,
    In c (collapseRuns p by_ inRun s) -> In c by_ \/ (In c s /\ p c = false).
Proof.
  induction s as [|a s IH]; intros inRun; cbn [collapseRuns In];
    [contradiction|].
  destruct (p a) eqn:E.
  - rewrite in_app_iff. intros [H | H].
    + destruct inRun; [contradiction | auto].
    + destruct (IH _ H) as [H' | [H' E']]; [auto|].
      right. split; [right|]; auto.
  - intros [<- | H].
    + right. split; [left; reflexivity | exact E].
    + destruct (IH _ H) as [H' | [H' E']]; [auto|].
      right. split; [right|]; auto.
Qed.

Section QueryProperties.

Context {imports : Imports}.

(** X9.  A normalized query holds no underscore, hyphen or parenthesis,
    and no white space other than U+0020, whatever the query was; so it
    is never equal to an alias that holds one of these, such as [zh_cn]
    or [chinese (simplified)]. *)
Theorem normalized_query_alphabet query :
  (forall c,
     In c (normalizeQueryLoose query) ->
     c <> 0x5F /\ c <> 0x2D /\ c <> 0x28 /\ c <> 0x29
     /\ (isWhiteSpace c = true -> c = 0x20))
  /\ (forall alias_,
        (exists c, In c alias_
                   /\ (c = 0x5F \/ c = 0x2D \/ c = 0x28 \/ c = 0x29)) ->
        normalizeQueryLoose query <> alias_).
Proof.
  assert (H : forall c,
             In c (normalizeQueryLoose query) ->
             c <> 0x5F /\ c <> 0x2D /\ c <> 0x28 /\ c <> 0x29
             /\ (isWhiteSpace c = true -> c = 0x20)).
  { intros c Hc. unfold normalizeQueryLoose in Hc. apply In_trim in Hc.
    rewrite replaceAll_plus, replaceAll_Char, replaceAll_plus in Hc.
    assert (Hsp : forall x, In x (js " ") -> x = 0x20).
    { intros x [<- | []]. reflexivity. }
    assert (Hgoal : c = 0x20
                    \/ (isWhiteSpace c = false
                        /\ anyOf [lit "("; lit ")"] c = false
                        /\ anyOf [lit "_"; lit "-"] c = false)).
    { apply In_collapseRuns in Hc as [Hc | [Hc E1]]; [auto|].
      apply In_substUnits in Hc as [Hc | [Hc E2]]; [auto|].
      apply In_collapseRuns in Hc as [Hc | [Hc E3]]; [auto|].
      right. auto. }
    destruct Hgoal as [-> | (E1 & E2 & E3)].
    - repeat split; try discriminate.
    - rewrite E1. revert E2 E3. clear. intros E2 E3.
      repeat split; try discriminate; intros ->; vm_compute in E2, E3;
        discriminate. }
  split; [exact H|].
  intros alias_ (c & Hin & Hc) E. rewrite <- E in Hin.
  destruct (H c Hin) as (H1 & H2 & H3 & H4 & _).
  destruct Hc as [-> | [-> | [-> | ->]]]; congruence.
Qed.

(** ** Readable language names *)

Lemma lower_of_upper s :
  forallb isAscii s = true ->
  forallb isAscii (map upperAscii s) = true
  /\ forallb isAscii (map lowerAscii s) = true
  /\ map lowerAscii (map upperAscii s) = map lowerAscii s
  /\ map lowerAscii (map lowerAscii s) = map lowerAscii s.
Proof.
  assert (Hc : forall c,
             isAscii c = true ->
             isAscii (upperAscii c) = true /\ isAscii (lowerAscii c) = true
             /\ lowerAscii (upperAscii c) = lowerAscii c
             /\ lowerAscii (lowerAscii c) = lowerAscii c).
  { intros c. unfold isAscii, upperAscii, lowerAscii, in_range.
    rewrite N.leb_le. intros Hc.
    destruct (N.leb_spec 0x61 c), (N.leb_spec c 0x7A),
      (N.leb_spec 0x41 c), (N.leb_spec c 0x5A); cbn [andb];
      try lia;
      repeat match goal with
             | |- context [N.leb ?a ?b] => destruct (N.leb_spec a b)
             end; cbn [andb]; rewrite ?N.leb_le; repeat split; lia. }
  induction s as [|c s IH]; [repeat split|].
  cbn [forallb map]. rewrite andb_true_iff. intros [H1 H2].
  destruct (Hc c H1) as (-> & -> & -> & ->).
  destruct (IH H2) as (-> & -> & -> & ->). repeat split.
Qed.

(** X10.  [langName] does not look at the case of ASCII letters: a
    code in upper or in lower case gets the name of the code as given.
    For every entry of [LANG_MAP] the name of its code is the name of
    the entry, which is not empty. *)
Theorem langName_ignores_case :
  (forall iso,
     forallb isAscii iso = true ->
     langName (map upperAscii iso) = langName iso
     /\ langName (map lowerAscii iso) = langName iso)
  /\ (forall code name,
        In (code, name) LANG_MAP -> langName code = name /\ name <> []).
Proof.
  split.
  - intros iso H. destruct (lower_of_upper iso H) as (Hu & Hl & Eu & El).
    unfold langName.
    assert (Ekey : forall s, orElse (Some s) [] = s)
      by (intros [|c s]; reflexivity).
    rewrite !Ekey. unfold toLowerCase. rewrite Hu, Hl, H, Eu, El.
    split; reflexivity.
  - intros code name Hin.
    assert (Hall : forallb
                     (fun e : jsstring * jsstring =>
                        str_eqb (langName (fst e)) (snd e)
                        && negb (isEmpty (snd e))) LANG_MAP = true)
      by (vm_compute; reflexivity).
    rewrite forallb_forall in Hall. specialize (Hall _ Hin).
    cbn [fst snd] in Hall. apply andb_true_iff in Hall as [H1 H2].
    apply str_eqb_eq in H1. split; [exact H1|].
    intros ->. discriminate H2.
Qed.

(** ** Messages of periods *)

Lemma first_units_of_commands c :
  (ci (lit "t") c = true -> c = 0x74 \/ c = 0x54)
  /\ (ci (lit "_") c = true -> c = 0x5F)
  /\ (ci (lit "c") c = true -> c = 0x63 \/ c = 0x43).
Proof. repeat split; solve_class. Qed.

Lemma dotOrSpace_starts_no_command c :
  dotOrSpace c = true ->
  ci (lit "t") c = false /\ ci (lit "_") c = false /\ ci (lit "c") c = false.
Proof.
  intros H. destruct (first_units_of_commands c) as (Ht & Hu & Hc).
  repeat split.
  - destruct (ci (lit "t") c); [|reflexivity].
    destruct (Ht eq_refl) as [-> | ->]; vm_compute in H; discriminate H.
  - destruct (ci (lit "_") c); [|reflexivity].
    rewrite (Hu eq_refl) in H. vm_compute in H. discriminate H.
  - destruct (ci (lit "c") c); [|reflexivity].
    destruct (Hc eq_refl) as [-> | ->]; vm_compute in H; discriminate H.
Qed.

(** X11.  A message made of periods and white space only is logged and
    nothing else is done with it: it is not translated and not answered.
    It is not remembered either, unless it is empty: a message that
    trims to the empty string takes the place of the remembered one. *)
Theorem messages_of_periods_are_only_logged line m mem :
  exec re_line line = Some m ->
  onlyDotsOrSpace (lineMessage m) = true ->
  handleLine line mem
  = mkRun (Normal tt)
      (if isEmpty (lineMessage m)
       then Some (mkLastMsg (lineSender m) [] (lineTeam m))
       else mem)
      [EConsole (LogChat (lineTeam m) (lineSender m) (lineMessage m))].
Proof.
  intros H Hdots. rewrite handleLine_run with (m := m) by assumption.
  destruct (lineMessage m) as [|c s] eqn:E.
  { unfold tracked. rewrite E, autoTranslateToConsole_run. reflexivity. }
  pose proof Hdots as Hc. unfold onlyDotsOrSpace in Hc.
  cbn [forallb] in Hc. apply andb_true_iff in Hc as [Hc _].
  apply dotOrSpace_starts_no_command in Hc as (Ht & Hu & Hcc).
  assert (Etm : test re_tm (c :: s) = false).
  { unfold re_tm. rewrite test_bol. unfold startsWith, tm_body.
    cbn [seq fold_right matchRe after]. rewrite Ht. reflexivity. }
  assert (Etl : test re_tl (c :: s) = false).
  { unfold re_tl. rewrite test_bol. unfold startsWith, tl_body.
    cbn [seq fold_right matchRe after]. rewrite Hu. reflexivity. }
  assert (Ecp : test re_code_prefix (c :: s) = false).
  { unfold re_code_prefix. rewrite test_bol. unfold startsWith, code_body.
    cbn [seq fold_right matchRe after]. rewrite Hcc. reflexivity. }
  assert (Ec : exec re_code (c :: s) = None).
  { destruct (exec re_code (c :: s)) as [mc|] eqn:Ex; [|reflexivity].
    apply re_code_inv in Ex as [Ex _]. congruence. }
  unfold tracked. rewrite E, test_re_command, test_re_dots, Etm, Etl, Ecp, Ec.
  fold (onlyDotsOrSpace (c :: s)). rewrite Hdots.
  cbn [isSome isEmpty negb orb andb].
  rewrite autoTranslateToConsole_run. rewrite Hdots, orb_true_r.
  reflexivity.
Qed.

End QueryProperties.

(** ** A greedy quantifier on a known run *)

Lemma repeatGreedy_run A p (k : MState -> option A) run rest cs :
  forallb p run = true ->
  match rest with
  | c :: _ => p c = false
  | [] => True
  end ->
  forall min max bef,
    (min <= length run)%nat ->
    (forall most, max = Some most -> (length run <= most)%nat) ->
    k (mkMState (rev run ++ bef) rest cs) <> None ->
    repeatGreedy p min max bef (run ++ rest) cs k
    = k (mkMState (rev run ++ bef) rest cs).
Proof.
  intros Hrun Hrest. induction run as [|a run IH]; intros min max bef Hmin Hmax Hk.
  - cbn [length] in Hmin. assert (min = 0%nat) by lia. subst min.
    cbn [app rev]. destruct rest as [|c rest]; cbn [repeatGreedy].
    + destruct max as [[|n]|]; reflexivity.
    + rewrite Hrest. destruct max as [[|n]|]; reflexivity.
  - cbn [forallb] in Hrun. apply andb_true_iff in Hrun as [Ha Hrun].
    cbn [app repeatGreedy]. rewrite Ha.
    assert (Hrec : forall max',
               (forall most, max' = Some most -> (length run <= most)%nat) ->
               orTry (repeatGreedy p (pred min) max' (a :: bef) (run ++ rest)
                        cs k)
                 match min with
                 | O => k (mkMState bef (a :: run ++ rest) cs)
                 | S _ => None
                 end
               = k (mkMState (rev (a :: run) ++ bef) rest cs)).
    { assert (Erev : rev (a :: run) ++ bef = rev run ++ a :: bef).
      { cbn [rev]. rewrite <- app_assoc. reflexivity. }
      rewrite Erev in *.
      intros max' Hmax'. rewrite IH; auto.
      - destruct (k (mkMState (rev run ++ a :: bef) rest cs)) eqn:E;
          [reflexivity|]. exfalso. apply Hk. reflexivity.
      - cbn [length] in Hmin. lia. }
    destruct max as [[|n]|].
    + specialize (Hmax 0%nat eq_refl). cbn [length] in Hmax. lia.
    + apply (Hrec (option_map pred (Some (S n)))). intros most E. cbn in E. injection E as <-.
      specialize (Hmax (S n) eq_refl). cbn [length] in Hmax. lia.
    + apply (Hrec (option_map pred None)). discriminate.
Qed.

Section CatalogueProperties.

Context {imports : Imports}.

Lemma candidates_are_entries c :
  In c buildLangCandidates -> In (code c, name c) LANG_MAP.
Proof.
  unfold buildLangCandidates. intros H.
  apply in_map_iff in H as ([k n] & <- & H). exact H.
Qed.

Lemma exactAlias_in q l found :
  exactAlias q l = Some found ->
  exists c, In c l /\ found = mkLangMatch (code c) (name c) (Num 100).
Proof.
  induction l as [|c l IH]; cbn [exactAlias]; [discriminate|].
  destruct (existsb _ (aliases c)).
  - intros E. injection E as <-. exists c. split; [left|]; reflexivity.
  - intros E. destruct (IH E) as (c' & Hin & ->).
    exists c'. split; [right|]; auto.
Qed.

Lemma fuzzyBest_in q l :
  forall best found,
    fuzzyBest q l best = Some found ->
    best = Some found
    \/ exists c, In c l
                 /\ found = mkLangMatch (code c) (name c) (aliasScore q c).
Proof.
  unfold fuzzyBest. induction l as [|c l IH]; intros best found;
    cbn [fold_left]; [auto|].
  intros H. apply IH in H as [H | (c' & Hin & ->)].
  - destruct best as [b|].
    + destruct (num_gtb (aliasScore q c) (lm_score b)); [|auto].
      injection H as <-. right. exists c. split; [left|]; reflexivity.
    + injection H as <-. right. exists c. split; [left|]; reflexivity.
  - right. exists c'. split; [right|]; auto.
Qed.

(** X12.  Whatever [fuzz.ratio] returns, an answer of [bestLangMatch]
    is an entry of [LANG_MAP], with its own code and name, and has a
    score of at least 55; and there is no answer for a query that
    normalizes to the empty string. *)
Theorem bestLangMatch_answers_from_the_catalogue query found :
  bestLangMatch query = Some found ->
  In (lm_code found, lm_name found) LANG_MAP
  /\ num_le (Num 55) (lm_score found)
  /\ normalizeQueryLoose query <> [].
Proof.
  unfold bestLangMatch.
  destruct (normalizeQueryLoose query) as [|u q] eqn:Eq; [discriminate|].
  destruct (exactAlias (u :: q) buildLangCandidates) as [f|] eqn:Ex.
  - intros E. injection E as <-.
    apply exactAlias_in in Ex as (c & Hin & ->).
    cbn [lm_code lm_name lm_score]. split; [|split].
    + apply candidates_are_entries. assumption.
    + reflexivity.
    + discriminate.
  - destruct (fuzzyBest (u :: q) buildLangCandidates None) as [b|] eqn:Ef;
      [|discriminate].
    destruct (num_geb (lm_score b) (Num 55)) eqn:Es; [|discriminate].
    intros E. injection E as <-.
    apply fuzzyBest_in in Ef as [Ef | (c & Hin & ->)]; [discriminate|].
    cbn [lm_code lm_name lm_score] in *. split; [|split].
    + apply candidates_are_entries. assumption.
    + exact Es.
    + discriminate.
Qed.

(** X13.  Looking a language up by its own code or name finds it, with
    score 100 and without a call of [fuzz.ratio]: by code for every
    entry of [LANG_MAP] whose code has no underscore, by name for every
    entry whose name has no parenthesis and for [zh_cn] and [zh_tw]. *)
Theorem languages_are_found_by_code_and_name code name :
  In (code, name) LANG_MAP ->
  (~ In 0x5F code ->
   bestLangMatch code = Some (mkLangMatch code name (Num 100)))
  /\ (~ In 0x28 name \/ code = js "zh_cn" \/ code = js "zh_tw" ->
      bestLangMatch name = Some (mkLangMatch code name (Num 100))).
Proof.
  intros Hin.
  assert (Hall :
            forallb
              (fun e : jsstring * jsstring =>
                 (existsb (N.eqb 0x5F) (fst e)
                  || isExactMatch (bestLangMatch (fst e)) (fst e) (snd e))
                 && ((existsb (N.eqb 0x28) (snd e)
                      && negb (str_eqb (fst e) (js "zh_cn"))
                      && negb (str_eqb (fst e) (js "zh_tw")))
                     || isExactMatch (bestLangMatch (snd e)) (fst e)
                          (snd e)))
              LANG_MAP = true) by (vm_compute; reflexivity).
  rewrite forallb_forall in Hall. specialize (Hall _ Hin).
  cbn [fst snd] in Hall. apply andb_true_iff in Hall as [H1 H2].
  assert (Hexact : forall q,
             isExactMatch (bestLangMatch q) code name = true ->
             bestLangMatch q = Some (mkLangMatch code name (Num 100))).
  { intros q. unfold isExactMatch.
    destruct (bestLangMatch q) as [[c n [|z]]|]; try discriminate.
    destruct z as [|p|p]; try discriminate.
    do 7 (destruct p as [p|p|]; try discriminate).
    intros E. apply andb_true_iff in E as [Ec En].
    apply str_eqb_eq in Ec, En. subst. reflexivity. }
  assert (Hnot : forall x s, ~ In x s -> existsb (N.eqb x) s = false).
  { intros x s Hx. destruct (existsb (N.eqb x) s) eqn:E; [|reflexivity].
    apply existsb_exists in E as (y & Hy & E). apply N.eqb_eq in E.
    subst y. contradiction. }
  split.
  - intros Hc. rewrite (Hnot _ _ Hc) in H1. auto.
  - intros Hn. apply Hexact.
    apply orb_true_iff in H2 as [H2 | H2]; [|exact H2].
    apply andb_true_iff in H2 as [H2 Htw].
    apply andb_true_iff in H2 as [Hp Hcn].
    apply negb_true_iff in Htw, Hcn. apply str_eqb_neq in Htw, Hcn.
    destruct Hn as [Hn | [Hn | Hn]]; try contradiction.
    rewrite (Hnot _ _ Hn) in Hp. discriminate.
Qed.

Lemma az_inv c : az_ c = true -> 0x61 <= c <= 0x7A \/ c = 0x5F.
Proof.
  unfold az_, anyOf, lit, cu_eqb, in_range.
  cbn [js list_ascii_of_string map N_of_ascii existsb].
  rewrite !orb_true_iff, andb_true_iff, !N.leb_le, N.eqb_eq.
  intros [H | [H | H]]; [left; lia | right; exact H | discriminate].
Qed.

Lemma code_units c :
  az_ c = true ->
  ci az_ c = true /\ isWordChar c = true /\ lowerAscii c = c
  /\ isAscii c = true /\ (c =? 0x20) = false.
Proof.
  intros H. pose proof (az_inv c H) as Hc.
  assert (El : lowerAscii c = c).
  { unfold lowerAscii, in_range.
    destruct (N.leb_spec 0x41 c), (N.leb_spec c 0x5A); cbn [andb];
      try reflexivity. lia. }
  repeat split.
  - unfold ci. rewrite El, H. reflexivity.
  - unfold isWordChar, in_range.
    rewrite !orb_true_iff, !andb_true_iff, !N.leb_le, N.eqb_eq. lia.
  - exact El.
  - unfold isAscii. apply N.leb_le. lia.
  - apply N.eqb_neq. lia.
Qed.

Lemma tmCommand_is_recognized code text :
  forallb az_ code = true ->
  (2 <= length code <= 5)%nat ->
  test re_tm (tmCommand code text) = true
  /\ tmLang (tmCommand code text) = code.
Proof.
  intros Hcode Hlen. split.
  - unfold re_tm. rewrite test_bol. unfold startsWith, tm_body, tmCommand.
    change (js "tm_") with [0x74; 0x6D; 0x5F].
    change (js " ") with [0x20].
    cbn [seq fold_right matchRe after before caps app].
    change (ci (lit "t") 0x74) with true.
    change (ci (lit "m") 0x6D) with true.
    change (ci (lit "_") 0x5F) with true.
    cbn iota.
    assert (Hrun : forallb (ci az_) code = true).
    { apply forallb_forall. intros c Hc.
      rewrite forallb_forall in Hcode. apply code_units. auto. }
    assert (Hlast : lastWord (rev code ++ [0x5F; 0x6D; 0x74]) = true).
    { destruct (rev code) as [|c r] eqn:E.
      - apply (f_equal (@length cu)) in E. rewrite length_rev in E.
        cbn in E. lia.
      - cbn. apply code_units. rewrite forallb_forall in Hcode.
        apply Hcode. apply in_rev. rewrite E. left. reflexivity. }
    rewrite repeatGreedy_run; cbn [before after];
      try match goal with
        | |- context [lastWord (rev code ++ ?x)] =>
            replace (lastWord (rev code ++ x)) with true
              by (symmetry; exact Hlast)
        end.
    + reflexivity.
    + exact Hrun.
    + reflexivity.
    + lia.
    + intros most E. injection E as <-. lia.
    + discriminate.
  - unfold tmLang, tmCommand, firstSpaceToken.
    assert (Htok : forall run rest,
               forallb az_ run = true ->
               takeWhile (fun c => negb (c =? 0x20)) (run ++ js " " ++ rest)
               = run).
    { intros run rest Hr. induction run as [|c run IH]; [reflexivity|].
      cbn [forallb] in Hr. apply andb_true_iff in Hr as [Hc Hr].
      cbn [app takeWhile]. destruct (code_units c Hc) as (_ & _ & _ & _ & ->).
      cbn [negb]. rewrite IH by assumption. reflexivity. }
    rewrite app_assoc, Htok
      by (rewrite forallb_app, Hcode; reflexivity).
    cbn [js list_ascii_of_string map app skipn]. unfold toLowerCase.
    assert (Hascii : forallb isAscii code = true).
    { apply forallb_forall. intros c Hc.
      rewrite forallb_forall in Hcode. apply code_units. auto. }
    rewrite Hascii. clear -Hcode.
    induction code as [|c code IH]; [reflexivity|].
    cbn [forallb] in Hcode. apply andb_true_iff in Hcode as [Hc Hcode].
    cbn [map]. destruct (code_units c Hc) as (_ & _ & -> & _).
    rewrite IH by assumption. reflexivity.
Qed.

Lemma catalogue_codes code :
  In code (map fst LANG_MAP) ->
  forallb az_ code = true /\ (2 <= length code <= 5)%nat.
Proof.
  intros Hin.
  assert (Hall : forallb
                   (fun c : jsstring =>
                      forallb az_ c && (2 <=? length c)%nat
                      && (length c <=? 5)%nat) (map fst LANG_MAP) = true)
    by (vm_compute; reflexivity).
  rewrite forallb_forall in Hall. specialize (Hall _ Hin).
  apply andb_true_iff in Hall as [Hall H5].
  apply andb_true_iff in Hall as [Hc H2].
  apply Nat.leb_le in H2, H5. split; [assumption | lia].
Qed.

Lemma bestLangMatch_code query found :
  bestLangMatch query = Some found -> In (lm_code found) (map fst LANG_MAP).
Proof.
  assert (Hc : forall c, In c buildLangCandidates ->
                         In (code c) (map fst LANG_MAP)).
  { intros c Hin. apply candidates_are_entries in Hin.
    apply (in_map fst) in Hin. exact Hin. }
  unfold bestLangMatch.
  destruct (normalizeQueryLoose query) as [|u q]; [discriminate|].
  destruct (exactAlias (u :: q) buildLangCandidates) as [f|] eqn:Ex.
  - intros E. injection E as <-.
    apply exactAlias_in in Ex as (c & Hin & ->). apply Hc, Hin.
  - destruct (fuzzyBest (u :: q) buildLangCandidates None) as [b|] eqn:Ef;
      [|discriminate].
    destruct (num_geb (lm_score b) (Num 55)); [|discriminate].
    intros E. injection E as <-.
    apply fuzzyBest_in in Ef as [Ef | (c & Hin & ->)]; [discriminate|].
    apply Hc, Hin.
Qed.

(** X14.  Every code of [LANG_MAP] is a code that [handleTm] accepts: a
    message made of [tm_], the code, a space and any text matches the
    [tm_] pattern, and the target language taken from it is exactly that
    code. *)
Theorem catalogue_codes_work_with_tm code name text :
  In (code, name) LANG_MAP ->
  test re_tm (tmCommand code text) = true
  /\ tmLang (tmCommand code text) = code.
Proof.
  intros Hin. apply (in_map fst) in Hin.
  destruct (catalogue_codes _ Hin) as [Hc Hlen].
  apply tmCommand_is_recognized; assumption.
Qed.

(** X15.  What [code_] answers can be used with [tm_]: whatever
    [fuzz.ratio] returns, the code of an answer of [bestLangMatch]
    makes, with [tm_] before it and a space and a text after it, a
    message that [handleTm] accepts with that code as its target. *)
Theorem hinted_codes_work_with_tm query found text :
  bestLangMatch query = Some found ->
  test re_tm (tmCommand (lm_code found) text) = true
  /\ tmLang (tmCommand (lm_code found) text) = lm_code found.
Proof.
  intros Hf. apply bestLangMatch_code in Hf.
  destruct (catalogue_codes _ Hf) as [Hc Hlen].
  apply tmCommand_is_recognized; assumption.
Qed.

End CatalogueProperties.

(** ** The command line *)

Lemma includes_In args x : includes args x = true <-> In x args.
Proof.
  unfold includes. rewrite existsb_exists. split.
  - intros (a & Hin & E). apply str_eqb_eq in E. subst. exact Hin.
  - intros Hin. exists x. split; [exact Hin|].
    destruct (str_eqb x x) eqn:E; [reflexivity|].
    apply str_eqb_neq in E. contradiction.
Qed.

(** X16.  [updateConfigKey] is called only for one of the three
    [--set-...] flags in first position followed by a value, with the key
    of that flag; the value is never empty and never a help flag, and no
    help flag stands anywhere among the arguments. *)
Theorem updateConfigKey_needs_a_leading_flag_with_a_value args key value :
  cliAction args = UpdateConfigKey key value ->
  exists flag arg rest,
    args = flag :: arg :: rest
    /\ In (flag, key, value)
         [(js "--set-log-path", js "logPath", PathResolve arg);
          (js "--set-cfg-dir", js "cfgDir", PathResolve arg);
          (js "--set-bind-key", js "bindKey", Verbatim arg)]
    /\ arg <> []
    /\ ~ In (js "--help") args /\ ~ In (js "-h") args.
Proof.
  unfold cliAction.
  destruct (includes args (js "--help")) eqn:Eh; [discriminate|].
  destruct (includes args (js "-h")) eqn:Eh'; [discriminate|].
  cbn [orb].
  assert (Hh : ~ In (js "--help") args).
  { intros H. apply includes_In in H. congruence. }
  assert (Hh' : ~ In (js "-h") args).
  { intros H. apply includes_In in H. congruence. }
  destruct args as [|flag [|arg rest]]; unfold firstIs; cbn [nth_error].
  - discriminate.
  - destruct (str_eqb flag (js "--init-config")); [discriminate|].
    destruct (str_eqb flag (js "--set-log-path"));
      destruct (str_eqb flag (js "--set-cfg-dir"));
      destruct (str_eqb flag (js "--set-bind-key")); discriminate.
  - destruct (str_eqb flag (js "--init-config")); [discriminate|].
    intros H. exists flag, arg, rest.
    destruct (str_eqb flag (js "--set-log-path")) eqn:E1;
      [apply str_eqb_eq in E1|];
      (destruct (str_eqb flag (js "--set-cfg-dir")) eqn:E2;
       [apply str_eqb_eq in E2|]);
      (destruct (str_eqb flag (js "--set-bind-key")) eqn:E3;
       [apply str_eqb_eq in E3|]);
      destruct arg as [|c s]; try discriminate H;
      injection H as <- <-; subst flag;
      (split; [reflexivity|]); (split; [|split; [discriminate | auto]]);
      cbn [In]; auto.
Qed.

(** X17.  An argument list that the script does not understand is not
    reported: a single argument other than a help flag and
    [--init-config], a [--set-...] flag without its value among them,
    starts the watcher, and so does such an argument followed by an empty
    value. *)
Theorem lone_arguments_start_the_watcher flag :
  flag <> js "--help" -> flag <> js "-h" -> flag <> js "--init-config" ->
  cliAction [flag] = Start /\ cliAction [flag; []] = Start.
Proof.
  intros H1 H2 H3.
  assert (E1 : str_eqb flag (js "--help") = false).
  { destruct (str_eqb flag (js "--help")) eqn:E; [|reflexivity].
    apply str_eqb_eq in E. contradiction. }
  assert (E2 : str_eqb flag (js "-h") = false).
  { destruct (str_eqb flag (js "-h")) eqn:E; [|reflexivity].
    apply str_eqb_eq in E. contradiction. }
  assert (E3 : str_eqb flag (js "--init-config") = false).
  { destruct (str_eqb flag (js "--init-config")) eqn:E; [|reflexivity].
    apply str_eqb_eq in E. contradiction. }
  unfold cliAction, includes, firstIs. cbn [existsb nth_error].
  rewrite E1, E2, E3.
  change (str_eqb [] (js "--help")) with false.
  change (str_eqb [] (js "-h")) with false. cbn [orb].
  split;
    destruct (str_eqb flag (js "--set-log-path"));
    destruct (str_eqb flag (js "--set-cfg-dir"));
    destruct (str_eqb flag (js "--set-bind-key")); reflexivity.
Qed.

Section HintProperties.

Context {imports : Imports}.

Lemma names_can_be_asked_for code name :
  In (code, name) LANG_MAP ->
  ~ In 0x28 name ->
  asksFor (codeCommand (js "_") name) name = true
  /\ asksFor (codeCommand (js " ") name) name = true
  /\ name <> []
  /\ bestLangMatch name = Some (mkLangMatch code name (Num 100)).
Proof.
  intros Hin Hp.
  assert (Hall :
            forallb
              (fun e : jsstring * jsstring =>
                 existsb (N.eqb 0x28) (snd e)
                 || (asksFor (codeCommand (js "_") (snd e)) (snd e)
                     && asksFor (codeCommand (js " ") (snd e)) (snd e)
                     && negb (isEmpty (snd e))
                     && isExactMatch (bestLangMatch (snd e)) (fst e)
                          (snd e)))
              LANG_MAP = true) by (vm_compute; reflexivity).
  rewrite forallb_forall in Hall. specialize (Hall _ Hin).
  cbn [fst snd] in Hall.
  assert (Hno : existsb (N.eqb 0x28) name = false).
  { destruct (existsb (N.eqb 0x28) name) eqn:E; [|reflexivity].
    apply existsb_exists in E as (y & Hy & E). apply N.eqb_eq in E.
    subst y. contradiction. }
  rewrite Hno in Hall. cbn [orb] in Hall.
  apply andb_true_iff in Hall as [Hall Hm].
  apply andb_true_iff in Hall as [Hall Hne].
  apply andb_true_iff in Hall as [Hu Hs].
  repeat split; try assumption.
  - intros ->. discriminate Hne.
  - unfold isExactMatch in Hm.
    destruct (bestLangMatch name) as [[c n [|z]]|]; try discriminate.
    destruct z as [|p|p]; try discriminate.
    do 7 (destruct p as [p|p|]; try discriminate).
    apply andb_true_iff in Hm as [Ec En].
    apply str_eqb_eq in Ec, En. subst. reflexivity.
Qed.

(** X18.  Asking for a language of [LANG_MAP] by its name (a name
    without a parenthesis), with [code_] or [code ] before it, is
    answered by one chat message, on the channel of the request, that
    names this language and its code; nothing is translated and the
    remembered message is kept. *)
Theorem asking_for_a_language_by_name line m mem code name :
  exec re_line line = Some m ->
  In (code, name) LANG_MAP ->
  ~ In 0x28 name ->
  lineMessage m = codeCommand (js "_") name
  \/ lineMessage m = codeCommand (js " ") name ->
  memory (handleLine line mem) = mem
  /\ replies (events (handleLine line mem))
     = [(js "For " ++ name ++ js " use tm_" ++ code, lineIsTeam m)]
  /\ translateCalls (events (handleLine line mem)) = [].
Proof.
  intros H Hin Hp Hmsg.
  destruct (names_can_be_asked_for code name Hin Hp)
    as (Hu & Hs & Hne & Hbest).
  assert (Hask : asksFor (lineMessage m) name = true)
    by (destruct Hmsg as [-> | ->]; assumption).
  clear Hu Hs Hmsg. unfold asksFor in Hask.
  apply andb_true_iff in Hask as [Hask Hq].
  apply andb_true_iff in Hask as [Htl Hcmd].
  apply negb_true_iff in Htl.
  rewrite handleLine_run with (m := m) by assumption.
  unfold tracked. rewrite Hcmd, Htl. cbn [negb andb memory events].
  destruct (exec re_code (lineMessage m)) as [mc|] eqn:Ecode;
    [|discriminate].
  apply str_eqb_eq in Hq.
  rewrite handleCodeLang_some with (m := mc) by assumption.
  rewrite Hq. destruct name as [|c name]; [congruence|].
  cbn [isSome events]. unfold codeReply. rewrite Hbest.
  cbn [lm_name lm_code lm_score]. repeat split.
Qed.

End HintProperties.

(** * Concrete runs

    The runs below use the stand-ins [demo] for the imports; their inputs
    are ASCII (or the Cyrillic word [privet]), on which no case mapping
    outside ASCII is called. *)

Lemma lastForeignMsg_tracks_plain_messages_witness :
  memory (handleLine (imports := demo) (js "[ALL] Bob: hello") None)
  = Some (mkLastMsg (js "Bob") (js "hello") (js "ALL"))
  /\ memory (handleLine (imports := demo) (js "[T] Carol: _tl de") None)
     = None.
Proof.
  split.
  - edestruct (@lastForeignMsg_tracks_plain_messages demo
                 (js "[ALL] Bob: hello")) as [H _];
      [vm_compute; reflexivity | vm_compute; discriminate | exact H].
  - edestruct (@lastForeignMsg_tracks_plain_messages demo
                 (js "[T] Carol: _tl de")) as [_ H];
      [vm_compute; reflexivity | vm_compute; discriminate |].
    apply H. vm_compute. reflexivity.
Defined.

(** The bare message [tm_] matches none of the command patterns and is
    stored as the last normal message. *)
Lemma bare_tm_updates_lastForeignMsg :
  test re_command (js "tm_") = false
  /\ memory (handleLine (imports := demo) (js "[CT] Bob: tm_") None)
     = Some (mkLastMsg (js "Bob") (js "tm_") (js "CT")).
Proof. split; vm_compute; reflexivity. Qed.

Lemma bare_tm_is_a_plain_message_witness :
  memory (handleLine (imports := demo) (js "[CT] Bob: tm_") None)
  = Some (mkLastMsg (js "Bob") (js "tm_") (js "CT"))
  /\ memory (handleLine (imports := demo) (js "[CT] Bob: tm_de") None)
     = None.
Proof.
  split.
  - edestruct (@bare_tm_is_a_plain_message demo (js "[CT] Bob: tm_"))
      as [H _]; [vm_compute; reflexivity |].
    apply H. vm_compute. reflexivity.
  - edestruct (@bare_tm_is_a_plain_message demo (js "[CT] Bob: tm_de"))
      as [_ H]; [vm_compute; reflexivity |].
    apply H. vm_compute. reflexivity.
Defined.

(** [tm_de] is a command, and no reply is sent for it. *)
Lemma tm_without_text_gets_no_reply :
  isCommand (js "tm_de") = true
  /\ replies (events (handleLine (imports := demo) (js "[CT] Bob: tm_de")
                        None)) = [].
Proof. split; vm_compute; reflexivity. Qed.

Lemma at_most_one_reply_per_line_witness :
  length (replies (events (handleLine (imports := demo)
                             (js "[CT] Alice: tm_de hello friend") None)))
  = 1%nat
  /\ replies (events (handleLine (imports := demo) (js "[ALL] Bob: hello")
                        None)) = [].
Proof.
  split.
  - edestruct (@at_most_one_reply_per_line demo
                 (js "[CT] Alice: tm_de hello friend")) as [H _];
      [vm_compute; reflexivity | exact H].
  - edestruct (@at_most_one_reply_per_line demo (js "[ALL] Bob: hello"))
      as (_ & H & _); [vm_compute; reflexivity |].
    apply H. vm_compute. reflexivity.
Defined.

(** In [code__] the query is [_], which normalizes to the empty string,
    and the "no close language match" reply is sent. *)
Lemma empty_normalized_query_gets_the_hint :
  test re_code_prefix (js "code__") = true
  /\ normalizeQueryLoose (imports := demo) (js "_") = []
  /\ replies (events (handleLine (imports := demo) (js "[CT] Bob: code__")
                        None))
     = [(noMatchReply (js "_"), true)].
Proof. repeat split; vm_compute; reflexivity. Qed.

Lemma code_without_query_is_a_noop_witness :
  handleLine (imports := demo) (js "[CT] Bob: code_") None
  = mkRun (Normal tt) None
      [EConsole (LogChat (js "CT") (js "Bob") (js "code_"))]
  /\ replies (events (handleLine (imports := demo) (js "[CT] Bob: code_-")
                        None))
     = [(noMatchReply (js "-"), true)].
Proof.
  split.
  - edestruct (@code_without_query_is_a_noop demo (js "[CT] Bob: code_"))
      as [H _]; [vm_compute; reflexivity |].
    apply H; vm_compute; reflexivity.
  - edestruct (@code_without_query_is_a_noop demo (js "[CT] Bob: code_-"))
      as [_ H]; [vm_compute; reflexivity |].
    apply (H (mkMatch [] (js "code_-") [] [(1%nat, js "-")]));
      vm_compute; reflexivity.
Defined.

(** In [tm_de<TAB>hello world] the first token that white space delimits
    is [tm_de], and the target passed on is [de<TAB>hello]. *)
Lemma tm_target_keeps_what_a_tab_joins :
  test re_tm (js "tm_de" ++ [0x09] ++ js "hello world") = true
  /\ toLowerCase (imports := demo)
       (skipn 3 (firstWhitespaceToken
                   (js "tm_de" ++ [0x09] ++ js "hello world")))
     = js "de"
  /\ translateCalls
       (events (handleLine (imports := demo)
                  (js "[ALL] Bob: tm_de" ++ [0x09] ++ js "hello world")
                  None))
     = [(js "world", None, js "de" ++ [0x09] ++ js "hello")].
Proof. repeat split; vm_compute; reflexivity. Qed.

Lemma tm_target_is_the_first_space_token_witness :
  option_map m_text (exec re_tm (js "tm_de,x hello")) = Some (js "tm_de")
  /\ exists rest,
       translateCalls
         (events (handleLine (imports := demo)
                    (js "[ALL] Bob: tm_de,x hello") None))
       = (js "hello", None, js "de,x") :: rest.
Proof.
  split; [vm_compute; reflexivity|].
  edestruct (@tm_target_is_the_first_space_token demo
               (js "[ALL] Bob: tm_de,x hello")) as (_ & H & _);
    [vm_compute; reflexivity | vm_compute; reflexivity |].
  apply H. vm_compute. discriminate.
Defined.

Lemma smartTranslate_degrades_on_failure_witness :
  result (smartTranslate (imports := demo) (js "fail") (js "de") None)
  = Normal (mkTranslation (js "fail") (Some (js "unknown")) None)
  /\ translateCalls
       (events (smartTranslate (imports := demo) (js "fail") (js "de") None))
     = [(js "fail", None, js "de")].
Proof.
  destruct (smartTranslate_degrades_on_failure (imports := demo)
              (js "fail") (js "de") None) as [_ H].
  destruct (H (js "boom") eq_refl) as (H1 & H2 & _). split; assumption.
Defined.

Lemma russian_override_for_cyrillic_witness :
  (translateCalls (events (smartTranslate (imports := demo) privet (js "de")
                             None))
   = [(privet, None, js "de"); (privet, Some (js "ru"), js "de")]
   /\ result (smartTranslate (imports := demo) privet (js "de") None)
      = Normal (mkTranslation (js "Hallo") (Some (js "ru"))
                  (Some (js "ru"))))
  /\ translateCalls
       (events (smartTranslate (imports := detects (Some (js "ru"))) privet
                  (js "de") None))
     = [(privet, None, js "de")].
Proof.
  split.
  - destruct (russian_override_for_cyrillic (imports := demo) privet
                (js "de") None (mkResponse (js "Privet") (Some (js "bg")))
                eq_refl) as (Hiff & _ & _ & H).
    assert (Hin : In (privet, Some (js "ru"), js "de")
                    (translateCalls
                       (events (smartTranslate (imports := demo) privet
                                  (js "de") None)))).
    { apply Hiff. split; [|split; [|reflexivity]].
      - intros (iso & E & Hiso). injection E as <-.
        vm_compute in Hiso. discriminate Hiso.
      - exists 0x41F. split; [left; reflexivity | lia]. }
    destruct (H Hin) as (Hcalls & _ & Hres). split; [exact Hcalls|].
    apply (Hres (mkResponse (js "Hallo") (Some (js "ru"))) eq_refl).
  - destruct (russian_override_for_cyrillic
                (imports := detects (Some (js "ru"))) privet (js "de") None
                (mkResponse privet (Some (js "ru"))) eq_refl)
      as (_ & Hru & Hnot & _).
    apply Hnot. apply (Hru (js "ru") eq_refl). left. reflexivity.
Defined.

(** A Cyrillic text whose source is reported as [RU], in upper case: the
    code differs from [ru], the text has Cyrillic units and the flag is
    set, and yet the one call made is the first. *)
Lemma upper_case_ru_is_not_forced :
  @translate (detects (Some (js "RU"))) privet None (js "en")
  = Resolved (mkResponse privet (Some (js "RU")))
  /\ str_eqb (js "RU") (js "ru") = false
  /\ test CYRILLIC_REGEX privet = true
  /\ PREFER_RU_FOR_CYRILLIC = true
  /\ translateCalls
       (events (smartTranslate (imports := detects (Some (js "RU"))) privet
                  (js "en") None))
     = [(privet, None, js "en")].
Proof. repeat split; vm_compute; reflexivity. Qed.

(** A plain message whose translation fails: the source is [unknown],
    not [en], and two console lines are printed. *)
Lemma failed_translation_prints_two_lines :
  isPlain (js "fail") = true
  /\ sourceIso (imports := demo)
       (fst (smartOutcome (imports := demo) (js "fail") (js "en")))
     = js "unknown"
  /\ consoleLines
       (events (autoTranslateToConsole (imports := demo) (js "ALL")
                  (js "Bob") (js "fail") None))
     = [LogTranslationFailed (js "boom");
        LogAutoTranslate (js "ALL") (js "Bob") (js "UNKNOWN") (js "EN")
          (js "fail")]
  /\ replies
       (events (autoTranslateToConsole (imports := demo) (js "ALL")
                  (js "Bob") (js "fail") None)) = [].
Proof. repeat split; vm_compute; reflexivity. Qed.

Lemma console_projection_of_plain_messages_witness :
  consoleLines
    (events (autoTranslateToConsole (imports := demo) (js "T") (js "Eve")
               (js "hello") None)) = []
  /\ consoleLines
       (events (autoTranslateToConsole (imports := demo) (js "ALL")
                  (js "Bob") privet None))
     = [LogAutoTranslate (js "ALL") (js "Bob") (js "Russian") (js "EN")
          (js "Hallo")].
Proof.
  split.
  - destruct (console_projection_of_plain_messages (imports := demo)
                (js "T") (js "Eve") (js "hello") None eq_refl)
      as (_ & _ & H).
    destruct (H eq_refl) as (res & Hres & Hen & _).
    apply Hen. vm_compute in Hres. inversion Hres. reflexivity.
  - destruct (console_projection_of_plain_messages (imports := demo)
                (js "ALL") (js "Bob") privet None eq_refl)
      as (_ & _ & H).
    destruct (H eq_refl) as (res & Hres & _ & Hne).
    vm_compute in Hres. inversion Hres; subst res.
    apply Hne. vm_compute. discriminate.
Defined.

Lemma bestLangMatch_resolution_witness :
  bestLangMatch (imports := demo) (js "_") = None
  /\ bestLangMatch (imports := demo) (js "French")
     = Some (mkLangMatch (js "fr") (js "French") (Num 100))
  /\ bestLangMatch (imports := demo) (js "brasil")
     = Some (mkLangMatch (js "pt") (js "Portuguese") (Num 60))
  /\ bestLangMatch (imports := demo) (js "xyz") = None.
Proof.
  pose (entry := fun i => nth i (buildLangCandidates (imports := demo))
                            (mkCandidate [] [] [])).
  pose (upTo := fun i => firstn i (buildLangCandidates (imports := demo))).
  pose (from := fun i => skipn i (buildLangCandidates (imports := demo))).
  split; [|split; [|split]].
  - apply (bestLangMatch_resolution (imports := demo) (js "_")).
    vm_compute. reflexivity.
  - destruct (bestLangMatch_resolution (imports := demo) (js "French"))
      as (_ & H & _).
    destruct (H ltac:(vm_compute; discriminate) (upTo 27%nat) (entry 27%nat)
                (from 28%nat) ltac:(vm_compute; reflexivity)) as [Hexact _].
    + apply no_alias_in. vm_compute. reflexivity.
    + apply Hexact. apply has_alias. vm_compute. reflexivity.
  - destruct (bestLangMatch_resolution (imports := demo) (js "brasil"))
      as (_ & H & _).
    destruct (H ltac:(vm_compute; discriminate) (upTo 75%nat) (entry 75%nat)
                (from 76%nat) ltac:(vm_compute; reflexivity)) as [_ Hfuzzy].
    + apply no_alias_in. vm_compute. reflexivity.
    + apply Hfuzzy.
      * apply no_alias_in. vm_compute. reflexivity.
      * apply forallb_forall. vm_compute. reflexivity.
      * apply forallb_forall. vm_compute. reflexivity.
  - destruct (bestLangMatch_resolution (imports := demo) (js "xyz"))
      as (_ & H & _).
    destruct (H ltac:(vm_compute; discriminate) (upTo 0%nat) (entry 0%nat)
                (from 1%nat) ltac:(vm_compute; reflexivity)) as [_ Hfuzzy].
    + apply no_alias_in. vm_compute. reflexivity.
    + apply Hfuzzy.
      * apply no_alias_in. vm_compute. reflexivity.
      * apply forallb_forall. vm_compute. reflexivity.
      * apply forallb_forall. vm_compute. reflexivity.
Defined.

(** ** Scenarios *)

Example scenario_A :
  replies (events (handleLine (imports := demo)
                     (js "[CT] Alice: tm_de hello friend") None))
  = [(js "Alice said - Hallo Freund - (from English)", true)].
Proof. vm_compute. reflexivity. Qed.

Example scenario_B :
  let afterBob :=
    memory (handleLine (imports := demo) (js "[ALL] Bob: " ++ privet) None) in
  afterBob = Some (mkLastMsg (js "Bob") privet (js "ALL"))
  /\ replies (events (handleLine (imports := demo) (js "[T] Carol: _tl de")
                        afterBob))
     = [(js "Bob said - Hallo - (from Russian)", true)].
Proof. split; vm_compute; reflexivity. Qed.

Example scenario_C :
  replies (events (handleLine (imports := demo) (js "[T] Dan: code brasil")
                     None))
  = [(js "For Portuguese use tm_pt", true)].
Proof. vm_compute. reflexivity. Qed.

Example scenario_D :
  replies (events (handleLine (imports := demo) (js "[ALL] Eve: _tl") None))
  = [(js "No recent message to translate.", false)].
Proof. vm_compute. reflexivity. Qed.

Example chat_reader_cfg_text :
  chatCfgText (js "hi") true
  = js "// Auto-generated by CS2 Chat Translator" ++ [0x0A]
    ++ js "say_team " ++ [0x22] ++ js "hi" ++ [0x22; 0x0A].
Proof. vm_compute. reflexivity. Qed.

(** ** Concrete runs of the further properties *)

Lemma lines_of_another_shape_are_ignored_witness :
  handleLine (imports := demo)
    (js "10/26 18:49:20  Bob connected.") None
  = mkRun (Normal tt) None [].
Proof.
  apply (lines_of_another_shape_are_ignored (imports := demo)).
  right. left. vm_compute. intros H.
  repeat (destruct H as [H | H]; [discriminate H|]). exact H.
Defined.

Lemma reply_is_written_then_triggered_witness :
  outbound (events (handleLine (imports := demo)
                      (js "[ALL] Alice: tm_de hello friend") None))
  = [EWriteChatCfg (js "Alice said - Hallo Freund - (from English)") false;
     ESetTimeoutPressBindKey 150].
Proof.
  edestruct (@reply_is_written_then_triggered demo
               (js "[ALL] Alice: tm_de hello friend")
               (mkMatch [] (js "[ALL] Alice: tm_de hello friend") []
                  [(3%nat, js "tm_de hello friend"); (2%nat, js "Alice");
                   (1%nat, js "ALL")]) None) as [_ H];
    [vm_compute; reflexivity |].
  destruct (H eq_refl) as (reply & E). rewrite E.
  vm_compute in E. injection E as <-. reflexivity.
Defined.

Lemma tl_without_memory_witness :
  replies (events (handleLine (imports := demo) (js "[T] Carol: _tl fr") None))
  = [(noRecentMessage, true)]
  /\ translateCalls
       (events (handleLine (imports := demo) (js "[T] Carol: _tl fr") None))
     = [].
Proof.
  rewrite (@tl_without_memory demo (js "[T] Carol: _tl fr")
             (mkMatch [] (js "[T] Carol: _tl fr") []
                [(3%nat, js "_tl fr"); (2%nat, js "Carol");
                 (1%nat, js "T")]));
    [split; reflexivity | vm_compute; reflexivity | vm_compute; reflexivity].
Defined.


Lemma tm_reply_when_translation_fails_witness :
  replies (events (handleLine (imports := demo) (js "[CT] Bob: tm_de fail")
                     None))
  = [(js "Bob said - fail - (from UNKNOWN)", true)].
Proof.
  rewrite (@tm_reply_when_translation_fails demo
              (js "[CT] Bob: tm_de fail")
              (mkMatch [] (js "[CT] Bob: tm_de fail") []
                 [(3%nat, js "tm_de fail"); (2%nat, js "Bob");
                  (1%nat, js "CT")]) None (js "boom"));
    [vm_compute; reflexivity | vm_compute; reflexivity
     | vm_compute; reflexivity | vm_compute; discriminate
     | vm_compute; reflexivity].
Defined.

Ltac find_entry := first [left; reflexivity | right; find_entry].

Lemma chat_line_fields_witness :
  lineTeam
    (mkMatch [] (js "[ALL] Alice: hello there") []
       [(3%nat, js "hello there"); (2%nat, js "Alice"); (1%nat, js "ALL")])
  = js "ALL"
  /\ lineIsTeam
       (mkMatch [] (js "[ALL] Alice: hello there") []
          [(3%nat, js "hello there"); (2%nat, js "Alice");
           (1%nat, js "ALL")])
     = false.
Proof.
  destruct (@chat_line_fields (js "[ALL] Alice: hello there")
              (mkMatch [] (js "[ALL] Alice: hello there") []
                 [(3%nat, js "hello there"); (2%nat, js "Alice");
                  (1%nat, js "ALL")]))
    as (_ & Hflag & _); [vm_compute; reflexivity |].
  split; [reflexivity | apply Hflag; reflexivity].
Defined.

Lemma messages_of_periods_are_only_logged_witness :
  handleLine (imports := demo) (js "[CT] Bob: ...")
    (Some (mkLastMsg (js "Alice") (js "hello") (js "ALL")))
  = mkRun (Normal tt) (Some (mkLastMsg (js "Alice") (js "hello") (js "ALL")))
      [EConsole (LogChat (js "CT") (js "Bob") (js "..."))]
  /\ handleLine (imports := demo) (js "[CT] Bob:  ")
       (Some (mkLastMsg (js "Alice") (js "hello") (js "ALL")))
     = mkRun (Normal tt) (Some (mkLastMsg (js "Bob") [] (js "CT")))
         [EConsole (LogChat (js "CT") (js "Bob") [])].
Proof.
  split.
  - apply (@messages_of_periods_are_only_logged demo (js "[CT] Bob: ...")
             (mkMatch [] (js "[CT] Bob: ...") []
                [(3%nat, js "..."); (2%nat, js "Bob"); (1%nat, js "CT")])
             (Some (mkLastMsg (js "Alice") (js "hello") (js "ALL"))));
      vm_compute; reflexivity.
  - apply (@messages_of_periods_are_only_logged demo (js "[CT] Bob:  ")
             (mkMatch [] (js "[CT] Bob:  ") []
                [(3%nat, js " "); (2%nat, js "Bob"); (1%nat, js "CT")])
             (Some (mkLastMsg (js "Alice") (js "hello") (js "ALL"))));
      vm_compute; reflexivity.
Defined.

Lemma bestLangMatch_answers_from_the_catalogue_witness :
  In (js "de", js "German") LANG_MAP
  /\ num_le (Num 55) (Num 60)
  /\ normalizeQueryLoose (imports := demo) (js "Germ") <> [].
Proof.
  apply (@bestLangMatch_answers_from_the_catalogue demo (js "Germ")
           (mkLangMatch (js "de") (js "German") (Num 60))).
  vm_compute. reflexivity.
Defined.

Lemma languages_are_found_by_code_and_name_witness :
  bestLangMatch (imports := demo) (js "pt")
  = Some (mkLangMatch (js "pt") (js "Portuguese") (Num 100))
  /\ bestLangMatch (imports := demo) (js "Portuguese")
     = Some (mkLangMatch (js "pt") (js "Portuguese") (Num 100)).
Proof.
  destruct (@languages_are_found_by_code_and_name demo (js "pt")
              (js "Portuguese")) as [Hcode Hname]; [find_entry |].
  split; [apply Hcode | apply Hname; left]; vm_compute; intros H;
    repeat (destruct H as [H | H]; [discriminate H|]); exact H.
Defined.

Lemma catalogue_codes_work_with_tm_witness :
  test re_tm (tmCommand (js "zh_cn") (js "good game")) = true
  /\ tmLang (imports := demo) (tmCommand (js "zh_cn") (js "good game"))
     = js "zh_cn".
Proof.
  apply (@catalogue_codes_work_with_tm demo (js "zh_cn")
           (js "Chinese (Simplified)") (js "good game")).
  find_entry.
Defined.

Lemma hinted_codes_work_with_tm_witness :
  test re_tm (tmCommand (js "fr") (js "bonne chance")) = true
  /\ tmLang (imports := demo) (tmCommand (js "fr") (js "bonne chance"))
     = js "fr".
Proof.
  apply (@hinted_codes_work_with_tm demo (js "french")
           (mkLangMatch (js "fr") (js "French") (Num 100))
           (js "bonne chance")).
  vm_compute. reflexivity.
Defined.

Lemma updateConfigKey_needs_a_leading_flag_with_a_value_witness :
  exists flag arg rest,
    [js "--set-bind-key"; js "k"; js "--verbose"] = flag :: arg :: rest
    /\ In (flag, js "bindKey", Verbatim (js "k"))
         [(js "--set-log-path", js "logPath", PathResolve arg);
          (js "--set-cfg-dir", js "cfgDir", PathResolve arg);
          (js "--set-bind-key", js "bindKey", Verbatim arg)]
    /\ arg <> []
    /\ ~ In (js "--help") [js "--set-bind-key"; js "k"; js "--verbose"]
    /\ ~ In (js "-h") [js "--set-bind-key"; js "k"; js "--verbose"].
Proof.
  apply (updateConfigKey_needs_a_leading_flag_with_a_value
           [js "--set-bind-key"; js "k"; js "--verbose"] (js "bindKey")
           (Verbatim (js "k"))).
  vm_compute. reflexivity.
Defined.

Lemma lone_arguments_start_the_watcher_witness :
  cliAction [js "--set-log-path"] = Start
  /\ cliAction [js "--set-log-path"; []] = Start.
Proof.
  apply (lone_arguments_start_the_watcher (js "--set-log-path"));
    vm_compute; discriminate.
Defined.

Lemma asking_for_a_language_by_name_witness :
  memory (handleLine (imports := demo) (js "[T] Dave: code French")
            (Some (mkLastMsg (js "Bob") privet (js "ALL"))))
  = Some (mkLastMsg (js "Bob") privet (js "ALL"))
  /\ replies (events (handleLine (imports := demo)
                        (js "[T] Dave: code French")
                        (Some (mkLastMsg (js "Bob") privet (js "ALL")))))
     = [(js "For French use tm_fr", true)]
  /\ translateCalls
       (events (handleLine (imports := demo) (js "[T] Dave: code French")
                  (Some (mkLastMsg (js "Bob") privet (js "ALL")))))
     = [].
Proof.
  apply (@asking_for_a_language_by_name demo (js "[T] Dave: code French")
           (mkMatch [] (js "[T] Dave: code French") []
              [(3%nat, js "code French"); (2%nat, js "Dave");
               (1%nat, js "T")])
           (Some (mkLastMsg (js "Bob") privet (js "ALL")))
           (js "fr") (js "French")).
  - vm_compute. reflexivity.
  - find_entry.
  - vm_compute. intros H.
    repeat (destruct H as [H | H]; [discriminate H|]). exact H.
  - right. vm_compute. reflexivity.
Defined.

Lemma unanswered_lines_complete_witness :
  result (handleLine (imports := demo) (js "[ALL] Bob: fail") None)
  = Normal tt
  /\ outbound (events (handleLine (imports := demo) (js "[ALL] Bob: fail")
                         None)) = [].
Proof.
  apply (@unanswered_lines_complete demo (js "[ALL] Bob: fail")
           (mkMatch [] (js "[ALL] Bob: fail") []
              [(3%nat, js "fail"); (2%nat, js "Bob"); (1%nat, js "ALL")])
           None); vm_compute; reflexivity.
Defined.
